(** * synesthesiaa: the YouTube Music search helper [scripts/ytmusic_search.py]

    A shallow embedding of [normalize_results] and [main], and the
    properties the specification states about them.

    Python values are embedded as a tree type [pyval]; a Python exception
    is a [Raise] in the [result] monad.  A [dict] is the list of its items in
    insertion order (the order [json.dumps] prints them in); a lookup takes
    the first binding of the key.  Strings are sequences of code points
    below 256.  Floating-point values are not part of the embedding. *)

From Stdlib Require Import ZArith DecimalString.
From stdpp Require Import base tactics option list strings.

Local Open Scope Z_scope.
Local Set Warnings "-register-all".

(** * The embedding *)

(** ** Python values, exceptions *)

Inductive pyval : Type :=
  | PNone
  | PBool (b : bool)
  | PInt (n : Z)
  | PStr (s : string)
  | PList (l : list pyval)
  | PDict (d : list (string * pyval)).

Inductive exn : Type :=
  | AttributeError
  | TypeError
  | KeyError
  | IndexError
  | ValueError
  | RecursionError
  | SystemError
  | LibraryError (name : string).

Inductive result (A : Type) : Type :=
  | Ok (a : A)
  | Raise (e : exn).
Arguments Ok {A} a.
Arguments Raise {A} e.

#[global] Instance result_ret : MRet result := fun _ a => Ok a.
#[global] Instance result_bind : MBind result := fun _ _ f m =>
  match m with
  | Ok a => f a
  | Raise e => Raise e
  end.

(** ** The operations of Python the script uses *)

(** [bool(v)]: what [if v], [not v] and [v or w] test. *)
Definition truthy (v : pyval) : bool :=
  match v with
  | PNone => false
  | PBool b => b
  | PInt n => negb (n =? 0)
  | PStr s => negb (String.eqb s "")
  | PList l => negb (Nat.eqb (length l) 0)
  | PDict d => negb (Nat.eqb (length d) 0)
  end.

(** [a or b]: [b] is evaluated only when [a] is falsy. *)
Definition py_or (a b : result pyval) : result pyval :=
  x ← a; if truthy x then Ok x else b.

Fixpoint assoc {V} (d : list (string * V)) (k : string) : option V :=
  match d with
  | [] => None
  | (k', v) :: d' => if String.eqb k' k then Some v else assoc d' k
  end.

(** [o.get(k)]: only a [dict] has the method. *)
Definition py_get (o : pyval) (k : string) : result pyval :=
  match o with
  | PDict d => Ok (default PNone (assoc d k))
  | _ => Raise AttributeError
  end.

Fixpoint chars (s : string) : list pyval :=
  match s with
  | EmptyString => []
  | String c s' => PStr (String c EmptyString) :: chars s'
  end.

(** [for x in o]: the elements of a list, the characters of a string, the
    keys of a dict. *)
Definition py_iter (o : pyval) : result (list pyval) :=
  match o with
  | PList l => Ok l
  | PStr s => Ok (chars s)
  | PDict d => Ok (map (fun kv => PStr (fst kv)) d)
  | _ => Raise TypeError
  end.

(** [o[-1]].  No key of a [dict] of the embedding equals the integer -1. *)
Definition py_last (o : pyval) : result pyval :=
  match o with
  | PList l => match last l with Some v => Ok v | None => Raise IndexError end
  | PStr s => match last (chars s) with Some v => Ok v | None => Raise IndexError end
  | PDict _ => Raise KeyError
  | _ => Raise TypeError
  end.

Fixpoint strs (l : list pyval) : result (list string) :=
  match l with
  | [] => Ok []
  | PStr s :: l' => ss ← strs l'; Ok (s :: ss)
  | _ :: _ => Raise TypeError
  end.

(** [sep.join(l)]: every element has to be a string. *)
Definition py_join (sep : string) (l : list pyval) : result pyval :=
  ss ← strs l; Ok (PStr (String.concat sep ss)).

(** ** [normalize_results] *)

(** [[artist.get("name") for artist in artists if artist.get("name")]] *)
Fixpoint artist_names (artists : list pyval) : result (list pyval) :=
  match artists with
  | [] => Ok []
  | artist :: rest =>
      c ← py_get artist "name";
      if truthy c then
        n ← py_get artist "name";
        ns ← artist_names rest;
        Ok (n :: ns)
      else artist_names rest
  end.

(** One turn of the loop: [results] before, [results] after. *)
Definition normalize_item (results : list pyval) (item : pyval)
  : result (list pyval) :=
  video_id ← py_or (py_get item "videoId") (py_get item "videoId");
  if negb (truthy video_id) then Ok results
  else
    title ← py_or (py_get item "title") (Ok (PStr "Unknown title"));
    artists ← py_or (py_get item "artists") (Ok (PList []));
    elems ← py_iter artists;
    names ← artist_names elems;
    channel ← py_join ", " names;
    channel ← (if negb (truthy channel)
               then py_or (py_or (py_get item "artist") (py_get item "author"))
                          (Ok (PStr "YouTube Music"))
               else Ok channel);
    thumbnails ← py_or (py_get item "thumbnails") (Ok (PList []));
    thumbnail_url ← (if truthy thumbnails
                     then t ← py_last thumbnails; py_get t "url"
                     else Ok PNone);
    Ok (results ++ [PDict [("id", video_id);
                           ("title", title);
                           ("channel", channel);
                           ("thumbnailUrl", thumbnail_url)]]).

Fixpoint normalize_loop (items : list pyval) (results : list pyval)
  : result (list pyval) :=
  match items with
  | [] => Ok results
  | item :: rest =>
      results' ← normalize_item results item;
      normalize_loop rest results'
  end.

Definition normalize_results (items : list pyval) : result (list pyval) :=
  normalize_loop items [].

(** ** Raw records: the data model of the specification

    [field item k] is the value [item.get(k)] reads: [None] stands for a
    key that is missing as well as for one bound to [None], which [get]
    does not tell apart. *)

Definition field (item : pyval) (k : string) : pyval :=
  match item with
  | PDict d => default PNone (assoc d k)
  | _ => PNone
  end.

(** The non-empty string a field holds, if it holds one. *)
Definition text (v : pyval) : option string :=
  match v with
  | PStr s => if String.eqb s "" then None else Some s
  | _ => None
  end.

Definition opt_str (v : pyval) : bool :=
  match v with
  | PNone | PStr _ => true
  | _ => false
  end.

(** A mapping that may bind [k] to a string. *)
Definition entry (k : string) (v : pyval) : bool :=
  match v with
  | PDict d => opt_str (default PNone (assoc d k))
  | _ => false
  end.

Definition opt_seq (k : string) (v : pyval) : bool :=
  match v with
  | PNone => true
  | PList l => forallb (entry k) l
  | _ => false
  end.

(** A raw result record: a mapping that may contain [videoId], [title],
    [artist], [author] (strings), [artists] (a sequence of mappings that
    may contain [name]) and [thumbnails] (a sequence of mappings that may
    contain [url]); other keys are free. *)
Definition raw_record (item : pyval) : bool :=
  match item with
  | PDict _ =>
      opt_str (field item "videoId") && opt_str (field item "title")
      && opt_seq "name" (field item "artists")
      && opt_str (field item "artist") && opt_str (field item "author")
      && opt_seq "url" (field item "thumbnails")
  | _ => false
  end.

(** The record has an identifier: [videoId] is present and not empty. *)
Definition has_video_id (item : pyval) : bool :=
  match text (field item "videoId") with
  | Some _ => true
  | None => false
  end.

(** The elements of a field that holds a sequence. *)
Definition seq_of (v : pyval) : list pyval :=
  match v with
  | PList l => l
  | _ => []
  end.

(** *** The output fields, in the words of the specification *)

Definition title_spec (item : pyval) : string :=
  default "Unknown title" (text (field item "title")).

Definition artist_names_spec (item : pyval) : list string :=
  omap (fun a => text (field a "name")) (seq_of (field item "artists")).

Definition channel_spec (item : pyval) : string :=
  let joined := String.concat ", " (artist_names_spec item) in
  if negb (String.eqb joined "") then joined
  else match text (field item "artist") with
       | Some s => s
       | None => match text (field item "author") with
                 | Some s => s
                 | None => "YouTube Music"
                 end
       end.

Definition thumbnail_spec (item : pyval) : pyval :=
  match last (seq_of (field item "thumbnails")) with
  | Some t => field t "url"
  | None => PNone
  end.

Definition record_spec (item : pyval) : pyval :=
  PDict [("id", field item "videoId");
         ("title", PStr (title_spec item));
         ("channel", PStr (channel_spec item));
         ("thumbnailUrl", thumbnail_spec item)].

(** The shape of an emitted record: the four keys [id], [title],
    [channel], [thumbnailUrl] in this order, the first three bound to
    non-empty strings, the last to a string or to [None]. *)
Definition emitted_shape (r : pyval) : Prop :=
  exists id title channel thumb,
    r = PDict [("id", PStr id); ("title", PStr title);
               ("channel", PStr channel); ("thumbnailUrl", thumb)]
    /\ id <> "" /\ title <> "" /\ channel <> ""
    /\ (thumb = PNone \/ exists u, thumb = PStr u).

(** ** The identifier read once

    [normalize_results] with [video_id = item.get("videoId")] in the place
    of [item.get("videoId") or item.get("videoId")]; nothing else differs. *)

Definition normalize_item_single_read (results : list pyval) (item : pyval)
  : result (list pyval) :=
  video_id ← py_get item "videoId";
  if negb (truthy video_id) then Ok results
  else
    title ← py_or (py_get item "title") (Ok (PStr "Unknown title"));
    artists ← py_or (py_get item "artists") (Ok (PList []));
    elems ← py_iter artists;
    names ← artist_names elems;
    channel ← py_join ", " names;
    channel ← (if negb (truthy channel)
               then py_or (py_or (py_get item "artist") (py_get item "author"))
                          (Ok (PStr "YouTube Music"))
               else Ok channel);
    thumbnails ← py_or (py_get item "thumbnails") (Ok (PList []));
    thumbnail_url ← (if truthy thumbnails
                     then t ← py_last thumbnails; py_get t "url"
                     else Ok PNone);
    Ok (results ++ [PDict [("id", video_id);
                           ("title", title);
                           ("channel", channel);
                           ("thumbnailUrl", thumbnail_url)]]).

Fixpoint normalize_loop_single_read (items : list pyval) (results : list pyval)
  : result (list pyval) :=
  match items with
  | [] => Ok results
  | item :: rest =>
      results' ← normalize_item_single_read results item;
      normalize_loop_single_read rest results'
  end.

Definition normalize_results_single_read (items : list pyval)
  : result (list pyval) :=
  normalize_loop_single_read items [].

(** ** [json.dumps]

    With the default arguments: [ensure_ascii=True], the separators ", "
    and ": ".  A string literal of the embedding cannot hold the quotation
    mark, which is written [dquote].

    [json_text v] is the text [json.dumps] returns for [v] when it
    returns; [json_dumps] below is the call, which raises when the
    interpreter refuses to write an integer out or runs out of room for
    the recursion of the encoder. *)

Definition dquote : string := String (Ascii.ascii_of_nat 34) EmptyString.

Definition hex_digit (n : nat) : string :=
  String.substring n 1 "0123456789abcdef".

(** The escape of one character: [ESCAPE_DCT], and [\u00xx] for the other
    characters outside [' '..'~']. *)
Definition json_escape_char (c : Ascii.ascii) : string :=
  let n := Ascii.nat_of_ascii c in
  if Nat.eqb n 92 then "\\"
  else if Nat.eqb n 34 then "\" +:+ dquote
  else if Nat.eqb n 8 then "\b"
  else if Nat.eqb n 12 then "\f"
  else if Nat.eqb n 10 then "\n"
  else if Nat.eqb n 13 then "\r"
  else if Nat.eqb n 9 then "\t"
  else if (Nat.ltb n 32 || Nat.ltb 126 n)%bool
       then "\u00" +:+ hex_digit (n / 16) +:+ hex_digit (n mod 16)
       else String c EmptyString.

Fixpoint json_escape (s : string) : string :=
  match s with
  | EmptyString => EmptyString
  | String c s' => json_escape_char c +:+ json_escape s'
  end.

Definition json_string (s : string) : string :=
  dquote +:+ json_escape s +:+ dquote.

Fixpoint json_text (v : pyval) : string :=
  match v with
  | PNone => "null"
  | PBool b => if b then "true" else "false"
  | PInt n => NilZero.string_of_int (Z.to_int n)
  | PStr s => json_string s
  | PList l => "[" +:+ String.concat ", " (map json_text l) +:+ "]"
  | PDict d =>
      "{" +:+ String.concat ", "
                (map (fun kv => json_string (fst kv) +:+ ": "
                                +:+ json_text (snd kv)) d)
          +:+ "}"
  end.

(** The limits of the interpreter that runs the script.

    [int_max_str_digits] is [sys.get_int_max_str_digits()]: from CPython
    3.11 on, the conversion of an integer of more decimal digits to a
    string raises [ValueError]; the default is 4300, and 0 stands for no
    limit (and for the interpreters that have none).

    [json_nesting_limit]: the encoder calls itself for every list and dict
    it enters and raises [RecursionError] when the recursion limit is
    overrun.  It enters the outermost container and up to
    [json_nesting_limit] containers nested inside it; how many that is
    depends on the version and the settings of the interpreter. *)
Record interpreter : Type := {
  int_max_str_digits : nat;
  json_nesting_limit : nat;
}.

(** [n] has more than [int_max_str_digits] decimal digits. *)
Definition exceeds_max_str_digits (py : interpreter) (n : Z) : bool :=
  negb (Nat.eqb (int_max_str_digits py) 0)
  && (10 ^ Z.of_nat (int_max_str_digits py) <=? Z.abs n).

Fixpoint mapM {A B} (f : A -> result B) (l : list A) : result (list B) :=
  match l with
  | [] => Ok []
  | x :: l' => y ← f x; ys ← mapM f l'; Ok (y :: ys)
  end.

(** The encoder, with [room] for [room] more containers one inside the
    other.  The elements are encoded from left to right, and the first
    exception is the one raised. *)
Fixpoint json_encode (py : interpreter) (v : pyval) (room : nat)
  : result string :=
  match v with
  | PNone => Ok "null"
  | PBool b => Ok (if b then "true" else "false")
  | PInt n =>
      if exceeds_max_str_digits py n then Raise ValueError
      else Ok (NilZero.string_of_int (Z.to_int n))
  | PStr s => Ok (json_string s)
  | PList l =>
      match room with
      | O => Raise RecursionError
      | S room' =>
          parts ← mapM (fun x => json_encode py x room') l;
          Ok ("[" +:+ String.concat ", " parts +:+ "]")
      end
  | PDict d =>
      match room with
      | O => Raise RecursionError
      | S room' =>
          parts ← mapM (fun kv =>
                          part ← json_encode py (snd kv) room';
                          Ok (json_string (fst kv) +:+ ": " +:+ part)) d;
          Ok ("{" +:+ String.concat ", " parts +:+ "}")
      end
  end.

(** [json.dumps(v)] *)
Definition json_dumps (py : interpreter) (v : pyval) : result string :=
  json_encode py v (S (json_nesting_limit py)).

(** ** [main]

    The driver acts on the world: it calls the [ytmusicapi] library,
    prints, and exits.  A run is the list of these events in order and the
    way it ends. *)

(** The collaborator: the constructor [YTMusic(headers_path)] and the
    method [search(query, filter=..., limit=...)] of the client it
    returns.  Either may raise. *)
Record ytmusicapi : Type := {
  client : Type;
  YTMusic : string -> result client;
  search : client -> string -> string -> Z -> result (list pyval);
}.

Inductive event : Type :=
  | EYTMusic (headers_path : string)
  | ESearch (query filter : string) (limit : Z)
  | EPrint (text : string).

Inductive ending (A : Type) : Type :=
  | Value (a : A)
  | SystemExit (status : Z)
  | Uncaught (e : exn).
Arguments Value {A} a.
Arguments SystemExit {A} status.
Arguments Uncaught {A} e.

Definition io (A : Type) : Type := list event * ending A.

#[global] Instance io_ret : MRet io := fun _ a => ([], Value a).
#[global] Instance io_bind : MBind io := fun _ _ f m =>
  match m with
  | (t, Value a) => let (t', r) := f a in (t ++ t', r)
  | (t, SystemExit n) => (t, SystemExit n)
  | (t, Uncaught e) => (t, Uncaught e)
  end.

(** A computation without effects, whose exception goes uncaught. *)
Definition lift {A} (r : result A) : io A :=
  match r with
  | Ok a => ([], Value a)
  | Raise e => ([], Uncaught e)
  end.

(** [print(text)]: the event holds [text]; the end of line that [print]
    writes after it is not repeated in the event. *)
Definition print (text : string) : io unit := ([EPrint text], Value tt).
Definition sys_exit {A} (status : Z) : io A := ([], SystemExit status).

(** [argv[i]] *)
Definition argv_index (argv : list string) (i : nat) : result string :=
  match argv !! i with
  | Some a => Ok a
  | None => Raise IndexError
  end.

Definition call_YTMusic (lib : ytmusicapi) (headers_path : string)
  : io (client lib) :=
  let (t, r) := lift (YTMusic lib headers_path) in
  (EYTMusic headers_path :: t, r).

Definition call_search (lib : ytmusicapi) (c : client lib)
    (query filter : string) (limit : Z) : io (list pyval) :=
  let (t, r) := lift (search lib c query filter limit) in
  (ESearch query filter limit :: t, r).

Definition main (py : interpreter) (lib : ytmusicapi) (argv : list string)
  : io unit :=
  _ ← (if (length argv <? 3)%nat
       then
         line ← lift (json_dumps py
                  (PDict [("error",
                           PStr "Usage: ytmusic_search.py <query> <headers_path>")]));
         _ ← print line;
         sys_exit 1
       else mret tt);
  query ← lift (argv_index argv 1);
  headers_path ← lift (argv_index argv 2);
  ytmusic ← call_YTMusic lib headers_path;
  items ← call_search lib ytmusic query "songs" 8;
  results ← lift (normalize_results items);
  line ← lift (json_dumps py (PDict [("results", PList results)]));
  print line.

(** The exit status of the process that ran [main]. *)
Definition exit_status (r : io unit) : Z :=
  match snd r with
  | Value _ => 0
  | SystemExit n => n
  | Uncaught _ => 1
  end.

(** The line of the usage error, character by character. *)
Definition usage_line : string :=
  "{" +:+ dquote +:+ "error" +:+ dquote +:+ ": " +:+ dquote
  +:+ "Usage: ytmusic_search.py <query> <headers_path>" +:+ dquote +:+ "}".

(** ** Objects with identity: the store

    The value embedding above cannot tell whether the function writes to
    the records it is given.  In the store embedding a list or a dict is a
    cell of the store, named by its location, and a value refers to it;
    [append] updates a cell in place and a display ([[]], [{...}], a
    comprehension) allocates a new one.  A location is an index of the
    store and allocation extends the store at its end. *)

Abbreviation loc := nat.

Inductive val : Type :=
  | VNone
  | VBool (b : bool)
  | VInt (n : Z)
  | VStr (s : string)
  | VRef (l : loc).
Arguments VRef l%_nat.

Inductive obj : Type :=
  | OList (vs : list val)
  | ODict (d : list (string * val)).

Abbreviation store := (list obj).

Definition st (A : Type) : Type := store -> store * result A.

#[global] Instance st_ret : MRet st := fun _ a σ => (σ, Ok a).
#[global] Instance st_bind : MBind st := fun _ _ f m σ =>
  match m σ with
  | (σ', Ok a) => f a σ'
  | (σ', Raise e) => (σ', Raise e)
  end.

Definition st_raise {A} (e : exn) : st A := fun σ => (σ, Raise e).

(** The object a reference names.  A reference of a running program is
    never dangling; the embedding answers [SystemError] for one that is. *)
Definition st_deref (l : loc) : st obj := fun σ =>
  match σ !! l with
  | Some o => (σ, Ok o)
  | None => (σ, Raise SystemError)
  end.

Definition st_alloc (o : obj) : st val := fun σ =>
  (σ ++ [o], Ok (VRef (length σ))).

Definition st_truthy (v : val) : st bool :=
  match v with
  | VNone => mret false
  | VBool b => mret b
  | VInt n => mret (negb (n =? 0))
  | VStr s => mret (negb (String.eqb s ""))
  | VRef l =>
      o ← st_deref l;
      match o with
      | OList vs => mret (negb (Nat.eqb (length vs) 0))
      | ODict d => mret (negb (Nat.eqb (length d) 0))
      end
  end.

Definition st_or (a b : st val) : st val :=
  x ← a; t ← st_truthy x; if t : bool then mret x else b.

Definition st_get (o : val) (k : string) : st val :=
  match o with
  | VRef l =>
      c ← st_deref l;
      match c with
      | ODict d => mret (default VNone (assoc d k))
      | OList _ => st_raise AttributeError
      end
  | _ => st_raise AttributeError
  end.

Fixpoint vchars (s : string) : list val :=
  match s with
  | EmptyString => []
  | String c s' => VStr (String c EmptyString) :: vchars s'
  end.

(** The elements a [for] loop visits.  The loops of the script do not
    write to the sequence they run over, so the elements are those the
    sequence has when the loop starts. *)
Definition st_iter (o : val) : st (list val) :=
  match o with
  | VStr s => mret (vchars s)
  | VRef l =>
      c ← st_deref l;
      match c with
      | OList vs => mret vs
      | ODict d => mret (map (fun kv => VStr (fst kv)) d)
      end
  | _ => st_raise TypeError
  end.

Definition st_last (o : val) : st val :=
  match o with
  | VStr s =>
      match last (vchars s) with
      | Some v => mret v
      | None => st_raise IndexError
      end
  | VRef l =>
      c ← st_deref l;
      match c with
      | OList vs =>
          match last vs with
          | Some v => mret v
          | None => st_raise IndexError
          end
      | ODict _ => st_raise KeyError
      end
  | _ => st_raise TypeError
  end.

Fixpoint vstrs (l : list val) : result (list string) :=
  match l with
  | [] => Ok []
  | VStr s :: l' => ss ← vstrs l'; Ok (s :: ss)
  | _ :: _ => Raise TypeError
  end.

(** [sep.join(o)] for the list object the comprehension has built. *)
Definition st_join (sep : string) (o : val) : st val :=
  vs ← st_iter o;
  match vstrs vs with
  | Ok ss => mret (VStr (String.concat sep ss))
  | Raise e => st_raise e
  end.

(** [o.append(v)]: the cell of [o] is updated in place. *)
Definition st_append (o : val) (v : val) : st unit :=
  match o with
  | VRef l => fun σ =>
      match σ !! l with
      | Some (OList vs) => (<[l := OList (vs ++ [v])]> σ, Ok tt)
      | Some (ODict _) => (σ, Raise AttributeError)
      | None => (σ, Raise SystemError)
      end
  | _ => st_raise AttributeError
  end.

Fixpoint st_artist_names (artists : list val) : st (list val) :=
  match artists with
  | [] => mret []
  | artist :: rest =>
      c ← st_get artist "name";
      t ← st_truthy c;
      if t : bool then
        n ← st_get artist "name";
        ns ← st_artist_names rest;
        mret (n :: ns)
      else st_artist_names rest
  end.

Definition st_normalize_item (results : val) (item : val) : st unit :=
  video_id ← st_or (st_get item "videoId") (st_get item "videoId");
  t ← st_truthy video_id;
  if negb t then mret tt
  else
    title ← st_or (st_get item "title") (mret (VStr "Unknown title"));
    artists ← st_or (st_get item "artists") (st_alloc (OList []));
    elems ← st_iter artists;
    names ← st_artist_names elems;
    names ← st_alloc (OList names);
    channel ← st_join ", " names;
    t ← st_truthy channel;
    channel ← (if negb t
               then st_or (st_or (st_get item "artist") (st_get item "author"))
                          (mret (VStr "YouTube Music"))
               else mret channel);
    thumbnails ← st_or (st_get item "thumbnails") (st_alloc (OList []));
    t ← st_truthy thumbnails;
    thumbnail_url ← (if t : bool
                     then x ← st_last thumbnails; st_get x "url"
                     else mret VNone);
    record ← st_alloc (ODict [("id", video_id);
                              ("title", title);
                              ("channel", channel);
                              ("thumbnailUrl", thumbnail_url)]);
    st_append results record.

Fixpoint st_normalize_loop (items : list val) (results : val) : st unit :=
  match items with
  | [] => mret tt
  | item :: rest =>
      _ ← st_normalize_item results item;
      st_normalize_loop rest results
  end.

Definition st_normalize_results (items : val) : st val :=
  results ← st_alloc (OList []);
  elems ← st_iter items;
  _ ← st_normalize_loop elems results;
  mret results.

(** *** Values and the objects that represent them

    [repr r σ pv v]: in the store [σ] the value [v] denotes the tree [pv],
    and no cell read on the way is the cell [r].  Two references to one
    cell denote equal trees; a cyclic structure denotes none. *)

Inductive repr (r : loc) (σ : store) : pyval -> val -> Prop :=
  | repr_none : repr r σ PNone VNone
  | repr_bool b : repr r σ (PBool b) (VBool b)
  | repr_int n : repr r σ (PInt n) (VInt n)
  | repr_str s : repr r σ (PStr s) (VStr s)
  | repr_list l vs pl :
      l <> r -> σ !! l = Some (OList vs) ->
      Forall2 (repr r σ) pl vs ->
      repr r σ (PList pl) (VRef l)
  | repr_dict l d pd :
      l <> r -> σ !! l = Some (ODict d) ->
      Forall2 (fun p x => fst p = fst x /\ repr r σ (snd p) (snd x)) pd d ->
      repr r σ (PDict pd) (VRef l).

(** [v] denotes [pv] in [σ]: no cell is excluded, [length σ] being the
    first location that names none. *)
Definition represents (σ : store) (pv : pyval) (v : val) : Prop :=
  repr (length σ) σ pv v.

(** Every cell but [r] is kept; the store may have grown. *)
Definition grows (r : loc) (σ σ' : store) : Prop :=
  forall l o, l <> r -> σ !! l = Some o -> σ' !! l = Some o.

(** The outcome of the store embedding against the outcome of the value
    embedding: the same exception, or a value that denotes the tree. *)
Inductive outcome_rel {A B} (R : A -> B -> Prop) : result A -> result B -> Prop :=
  | outcome_ok a b : R a b -> outcome_rel R (Ok a) (Ok b)
  | outcome_raise e : outcome_rel R (Raise e) (Raise e).

(** [m], run from [σ], does what [p] does, and moves the store along [T]. *)
Definition sim {A B} (T : store -> store -> Prop)
    (R : store -> A -> B -> Prop) (σ : store) (p : result A) (m : st B) : Prop :=
  T σ (fst (m σ)) /\ outcome_rel (R (fst (m σ))) p (snd (m σ)).

Fixpoint pyval_ind' (P : pyval -> Prop)
    (HNone : P PNone) (HBool : forall b, P (PBool b))
    (HInt : forall n, P (PInt n)) (HStr : forall s, P (PStr s))
    (HList : forall l, Forall P l -> P (PList l))
    (HDict : forall d, Forall (fun kv => P (snd kv)) d -> P (PDict d))
    (v : pyval) : P v :=
  match v with
  | PNone => HNone
  | PBool b => HBool b
  | PInt n => HInt n
  | PStr s => HStr s
  | PList l =>
      HList l
        ((fix go (l : list pyval) : Forall P l :=
            match l with
            | [] => List.Forall_nil P
            | x :: l' =>
                List.Forall_cons P x l'
                  (pyval_ind' P HNone HBool HInt HStr HList HDict x) (go l')
            end) l)
  | PDict d =>
      HDict d
        ((fix go (d : list (string * pyval)) : Forall (fun kv => P (snd kv)) d :=
            match d with
            | [] => List.Forall_nil _
            | kv :: d' =>
                List.Forall_cons (fun kv => P (snd kv)) kv d'
                  (pyval_ind' P HNone HBool HInt HStr HList HDict (snd kv))
                  (go d')
            end) d)
  end.

(** The cell [r] holds the list [results], whose elements denote
    [presults]. *)
Definition results_rel (r : loc) (σ : store) (presults : list pyval) (_ : unit)
  : Prop :=
  exists rs, σ !! r = Some (OList rs) /\ Forall2 (repr r σ) presults rs.

(** ** What a call reads and what it emits, whatever the types *)

(** The keys [normalize_results] reads from an item. *)
Definition read_keys : list string :=
  ["videoId"; "title"; "artists"; "artist"; "author"; "thumbnails"].

(** Two items that [normalize_results] cannot tell apart: two mappings
    that agree on the keys it reads, or two values that are no mappings. *)
Definition same_read (item item' : pyval) : Prop :=
  match item, item' with
  | PDict _, PDict _ => Forall (fun k => field item k = field item' k) read_keys
  | PDict _, _ | _, PDict _ => False
  | _, _ => True
  end.

(** A mapping whose [videoId] is missing or falsy. *)
Definition unidentified (item : pyval) : bool :=
  match item with
  | PDict _ => negb (truthy (field item "videoId"))
  | _ => false
  end.

(** A record as the loop appends it: the four keys in order, with [id],
    [title] and [channel] truthy.  Nothing is assumed of the types. *)
Definition emitted_record (r : pyval) : Prop :=
  exists id title channel thumb,
    r = PDict [("id", id); ("title", title);
               ("channel", channel); ("thumbnailUrl", thumb)]
    /\ truthy id = true /\ truthy title = true /\ truthy channel = true.

Definition is_mapping (item : pyval) : bool :=
  match item with
  | PDict _ => true
  | _ => false
  end.

(** Two mappings that agree on the keys read, but for the elements of
    [thumbnails] before the last, which is the same. *)
Definition same_last_thumbnail (item item' : pyval) : Prop :=
  is_mapping item = true /\ is_mapping item' = true
  /\ Forall (fun k => field item k = field item' k)
       ["videoId"; "title"; "artists"; "artist"; "author"]
  /\ exists l l' t,
       field item "thumbnails" = PList (l ++ [t])
       /\ field item' "thumbnails" = PList (l' ++ [t]).

(** The lines a run has printed, and the calls it has made to the
    collaborator, in order. *)
Definition prints (t : list event) : list string :=
  omap (fun e => match e with EPrint line => Some line | _ => None end) t.

Definition calls (t : list event) : list event :=
  List.filter (fun e => match e with EPrint _ => false | _ => true end) t.

(** [m] keeps every cell but [r], from whatever store it is run. *)
Definition keeps {A} (r : loc) (m : st A) : Prop :=
  forall σ, grows r σ (fst (m σ)).

(** *** The items a call gets through

    What the loop needs of an item so as not to raise: nothing of
    [videoId], [title], [artist], [author] and [url], which are copied
    whatever they are. *)

Definition is_ok {A} (r : result A) : bool :=
  match r with
  | Ok _ => true
  | Raise _ => false
  end.

(** An entry of [artists]: a mapping whose [name] is falsy or a string. *)
Definition name_ok (artist : pyval) : bool :=
  match artist with
  | PDict _ =>
      match field artist "name" with
      | PStr _ => true
      | v => negb (truthy v)
      end
  | _ => false
  end.

(** [artists]: falsy, or a list of such entries. *)
Definition artists_ok (v : pyval) : bool :=
  negb (truthy v)
  || match v with
     | PList l => forallb name_ok l
     | _ => false
     end.

(** [thumbnails]: falsy, or a list whose last element is a mapping. *)
Definition thumbnails_ok (v : pyval) : bool :=
  negb (truthy v)
  || match v with
     | PList l =>
         match last l with
         | Some t => is_mapping t
         | None => false
         end
     | _ => false
     end.

(** An item: a mapping without identifier, or one whose [artists] and
    [thumbnails] are as above. *)
Definition accepted (item : pyval) : bool :=
  is_mapping item
  && (unidentified item
      || (artists_ok (field item "artists")
          && thumbnails_ok (field item "thumbnails"))).

(** ** Sample inputs *)

(** Three records: one with artists and thumbnails, one without an
    identifier, one with an empty [artists] and an [artist]. *)
Definition ex1 : list pyval :=
  [ PDict [("videoId", PStr "a1");
           ("artists", PList [PDict [("name", PStr "Artist X")];
                              PDict [("name", PStr "Artist Y")]]);
           ("thumbnails", PList [PDict [("url", PStr "low.jpg")];
                                 PDict [("url", PStr "high.jpg")]])];
    PDict [("title", PStr "no id")];
    PDict [("videoId", PStr "a2"); ("artists", PList []);
           ("artist", PStr "Solo Artist")] ].

(** A record whose last thumbnail has no [url]. *)
Definition ex_no_url : pyval :=
  PDict [("videoId", PStr "a5");
         ("thumbnails", PList [PDict [("url", PStr "low.jpg")];
                               PDict [("width", PInt 544)]])].

(** An interpreter with the default limit on the digits of an integer,
    and room for 990 containers nested inside the outermost one. *)
Definition py_ex : interpreter :=
  {| int_max_str_digits := 4300; json_nesting_limit := 990 |}.

(** A collaborator whose client is the headers path and whose search
    answers the first [limit] records of [ex1]. *)
Definition lib_ex1 : ytmusicapi :=
  {| client := string;
     YTMusic := fun headers_path => Ok headers_path;
     search := fun _ _ _ limit => Ok (take (Z.to_nat limit) ex1) |}.

(** An interpreter with room for the results object of string-typed
    records and no more. *)
Definition py_shallow : interpreter :=
  {| int_max_str_digits := 4300; json_nesting_limit := 2 |}.

(** A collaborator whose search answers one record with an integer
    [videoId] of 4301 digits, and one whose search answers one record with
    a list for [videoId]. *)
Definition lib_huge_id : ytmusicapi :=
  {| client := string;
     YTMusic := fun headers_path => Ok headers_path;
     search := fun _ _ _ _ => Ok [PDict [("videoId", PInt (10 ^ 4300))]] |}.

Definition lib_list_id : ytmusicapi :=
  {| client := string;
     YTMusic := fun headers_path => Ok headers_path;
     search := fun _ _ _ _ => Ok [PDict [("videoId", PList [PInt 1])]] |}.

(** A store with one record that the input list holds twice. *)
Definition store_ex : store :=
  [ OList [VRef 1; VRef 2];
    ODict [("name", VStr "Artist X")];
    ODict [("name", VStr "")];
    OList [VRef 5];
    ODict [("videoId", VStr "a1"); ("artists", VRef 0); ("thumbnails", VRef 3)];
    ODict [("url", VStr "high.jpg")];
    ODict [("videoId", VNone); ("title", VStr "no id")];
    OList [VRef 4; VRef 6; VRef 4] ].

(** The records that [VRef 7] denotes in [store_ex]. *)
Definition pitems_ex : list pyval :=
  let a1 :=
    PDict [("videoId", PStr "a1");
           ("artists", PList [PDict [("name", PStr "Artist X")];
                              PDict [("name", PStr "")]]);
           ("thumbnails", PList [PDict [("url", PStr "high.jpg")]])] in
  [a1; PDict [("videoId", PNone); ("title", PStr "no id")]; a1].

(** Two items of unexpected types that the loop gets through: numbers
    for [videoId], [title] and [url], a boolean for [artist], a thumbnail
    that is no mapping before the last; and an item without identifier
    whose [artists] is a number. *)
Definition ex_untyped : list pyval :=
  [ PDict [("videoId", PInt 42); ("title", PInt 7); ("artist", PBool true);
           ("thumbnails", PList [PInt 1; PDict [("url", PInt 3)]]);
           ("duration", PStr "3:05")];
    PDict [("videoId", PInt 0); ("artists", PInt 5)] ].

(** * The properties *)

(** ** [normalize_results] on raw records *)

Lemma strs_PStr (ss : list string) : strs (map PStr ss) = Ok ss.
Proof.
  induction ss as [|s ss IH]; simpl; [done|]. by rewrite IH.
Qed.

Lemma artist_names_entries (l : list pyval) :
  forallb (entry "name") l = true ->
  artist_names l = Ok (map PStr (omap (fun a => text (field a "name")) l)).
Proof.
  induction l as [|a l IH]; simpl; [done|].
  intros [Ha Hl]%andb_true_iff. rewrite (IH Hl).
  destruct a as [| | | | |d]; simpl in Ha; try done.
  simpl. destruct (default PNone (assoc d "name")) as [| | |s| |]; try done.
  simpl. destruct (String.eqb s ""); done.
Qed.

Lemma py_or_same (v : pyval) : py_or (Ok v) (Ok v) = Ok v.
Proof. unfold py_or; simpl. by destruct (truthy v). Qed.

Lemma truthy_opt_str (v : pyval) :
  opt_str v = true -> truthy v = match text v with Some _ => true | None => false end.
Proof. destruct v as [| | |s| |]; try done. simpl. by destruct (String.eqb s ""). Qed.

Lemma py_or_default (v : pyval) (s0 : string) :
  opt_str v = true ->
  py_or (Ok v) (Ok (PStr s0)) = Ok (PStr (default s0 (text v))).
Proof.
  destruct v as [| | |s| |]; try done.
  unfold py_or; simpl. by destruct (String.eqb s "").
Qed.

Lemma py_or_seq (k : string) (v : pyval) :
  opt_seq k v = true ->
  py_or (Ok v) (Ok (PList [])) = Ok (PList (seq_of v))
  /\ forallb (entry k) (seq_of v) = true.
Proof.
  destruct v as [| | | |l|]; try done.
  unfold py_or; simpl. by destruct l.
Qed.

Lemma last_entry (k : string) (l : list pyval) :
  forallb (entry k) l = true ->
  (if truthy (PList l) then t ← py_last (PList l); py_get t k else Ok PNone)
  = Ok match last l with
       | Some t => field t k
       | None => PNone
       end.
Proof.
  intros Hl. destruct (last l) as [t|] eqn:E.
  - assert (Ht : entry k t = true).
    { rewrite forallb_forall in Hl.
      by apply Hl, list_elem_of_In, last_Some_elem_of. }
    destruct l as [|a l]; [done|]. simpl truthy. cbn [negb py_last].
    rewrite E. destruct t; done.
  - apply last_None in E as ->. done.
Qed.

Lemma py_or_chain (a b : pyval) (s0 : string) :
  opt_str a = true -> opt_str b = true ->
  py_or (py_or (Ok a) (Ok b)) (Ok (PStr s0)) =
    Ok (PStr match text a with
             | Some s => s
             | None => default s0 (text b)
             end).
Proof.
  intros Ha Hb. unfold py_or at 2; simpl.
  destruct a as [| | |s| |]; try done; simpl.
  - by apply py_or_default.
  - destruct (String.eqb s "") eqn:E; simpl; [by apply py_or_default|].
    unfold py_or; simpl. by rewrite E.
Qed.

Lemma normalize_item_raw (results : list pyval) (item : pyval) :
  raw_record item = true ->
  normalize_item results item =
    Ok (results ++ (if has_video_id item then [record_spec item] else [])).
Proof.
  destruct item as [| | | | |d]; try done.
  unfold raw_record, normalize_item, has_video_id, record_spec, title_spec,
    channel_spec, thumbnail_spec, artist_names_spec.
  cbn [py_get field].
  generalize (default PNone (assoc d "videoId")) as vid,
    (default PNone (assoc d "title")) as ttl,
    (default PNone (assoc d "artists")) as arts,
    (default PNone (assoc d "artist")) as art,
    (default PNone (assoc d "author")) as aut,
    (default PNone (assoc d "thumbnails")) as ths.
  intros vid ttl arts art aut ths
    (((((Hvid & Httl)%andb_true_iff & Harts)%andb_true_iff
        & Hart)%andb_true_iff & Haut)%andb_true_iff & Hths)%andb_true_iff.
  rewrite py_or_same; cbn [mbind result_bind]. rewrite (truthy_opt_str _ Hvid).
  destruct (text vid) as [s|]; cbn [negb]; [|by rewrite app_nil_r].
  rewrite (py_or_default _ _ Httl); cbn [mbind result_bind].
  destruct (py_or_seq _ _ Harts) as [-> Hnames]; cbn [mbind result_bind py_iter].
  rewrite (artist_names_entries _ Hnames); cbn [mbind result_bind].
  unfold py_join. rewrite strs_PStr; cbn [mbind result_bind truthy].
  destruct (py_or_seq _ _ Hths) as [-> Hurls].
  cbn [mbind result_bind]. rewrite (last_entry _ _ Hurls).
  destruct (negb (String.eqb _ "")); cbn [negb mbind result_bind]; [done|].
  by rewrite (py_or_chain _ _ _ Hart Haut).
Qed.

Lemma normalize_loop_raw (items results : list pyval) :
  Forall raw_record items ->
  normalize_loop items results =
    Ok (results ++ map record_spec (List.filter has_video_id items)).
Proof.
  intros H. revert results.
  induction H as [|item items Hitem _ IH]; intros results; simpl.
  - by rewrite app_nil_r.
  - rewrite normalize_item_raw by by apply Is_true_true.
    cbn [mbind result_bind]. rewrite IH, <- app_assoc.
    by destruct (has_video_id item).
Qed.

(** On raw records the function does not raise, and returns the records
    the specification describes for the items that have an identifier. *)
Lemma normalize_results_raw (items : list pyval) :
  Forall raw_record items ->
  normalize_results items =
    Ok (map record_spec (List.filter has_video_id items)).
Proof. apply normalize_loop_raw. Qed.

Lemma filter_split_length {A} (p : A -> bool) (l : list A) :
  (length (List.filter p l)
   + length (List.filter (fun x => negb (p x)) l))%nat = length l.
Proof.
  induction l as [|x l IH]; simpl; [done|].
  destruct (p x); simpl; lia.
Qed.

Lemma Forall2_map_spec {A B} (f : A -> B) (R : A -> B -> Prop) (l : list A) :
  Forall (fun x => R x (f x)) l -> Forall2 R l (map f l).
Proof. induction 1; simpl; by constructor. Qed.

Lemma Forall_filter_bool {A} (p : A -> bool) (P Q : A -> Prop) (l : list A) :
  (forall x, P x -> p x = true -> Q x) ->
  Forall P l -> Forall Q (List.filter p l).
Proof.
  intros HPQ. induction 1 as [|x l Hx _ IH]; simpl; [done|].
  destruct (p x) eqn:E; [constructor|]; auto.
Qed.

Lemma has_video_id_text (item : pyval) :
  has_video_id item = true ->
  exists s, field item "videoId" = PStr s /\ s <> "".
Proof.
  unfold has_video_id.
  destruct (field item "videoId") as [| | |s| |]; try done. simpl.
  destruct (String.eqb_spec s ""); [done|]. eauto.
Qed.

Lemma text_Some (v : pyval) (s : string) :
  text v = Some s <-> v = PStr s /\ s <> "".
Proof.
  destruct v as [| | |s'| |]; simpl; try (split; [done | by intros []]).
  destruct (String.eqb_spec s' ""); split.
  - done.
  - intros [[= ->] ?]. done.
  - intros [= ->]. done.
  - by intros [[= ->] ?].
Qed.

Lemma text_None (v : pyval) :
  opt_str v = true -> text v = None <-> v = PNone \/ v = PStr "".
Proof.
  destruct v as [| | |s| |]; simpl; try done.
  - intros _. split; auto.
  - intros _. destruct (String.eqb_spec s ""); subst; split; try done; auto.
    intros [|[=]]; done.
Qed.

(** ** The cases of the specification, run *)

Example channel_artists_joined :
  normalize_results
    [PDict [("videoId", PStr "a1");
            ("artists", PList [PDict [("name", PStr "Artist X")];
                               PDict [("name", PStr "Artist Y")]])]]
  = Ok [PDict [("id", PStr "a1"); ("title", PStr "Unknown title");
               ("channel", PStr "Artist X, Artist Y");
               ("thumbnailUrl", PNone)]].
Proof. reflexivity. Qed.

Example channel_artist :
  normalize_results
    [PDict [("videoId", PStr "a2"); ("artists", PList []);
            ("artist", PStr "Solo Artist")]]
  = Ok [PDict [("id", PStr "a2"); ("title", PStr "Unknown title");
               ("channel", PStr "Solo Artist"); ("thumbnailUrl", PNone)]].
Proof. reflexivity. Qed.

Example channel_author :
  normalize_results
    [PDict [("videoId", PStr "a3"); ("artists", PList []);
            ("author", PStr "Channel Name")]]
  = Ok [PDict [("id", PStr "a3"); ("title", PStr "Unknown title");
               ("channel", PStr "Channel Name"); ("thumbnailUrl", PNone)]].
Proof. reflexivity. Qed.

Example channel_fallback :
  normalize_results [PDict [("videoId", PStr "a4")]]
  = Ok [PDict [("id", PStr "a4"); ("title", PStr "Unknown title");
               ("channel", PStr "YouTube Music"); ("thumbnailUrl", PNone)]].
Proof. reflexivity. Qed.

Example thumbnail_last_wins :
  normalize_results
    [PDict [("videoId", PStr "a1"); ("title", PStr "Song");
            ("thumbnails", PList [PDict [("url", PStr "low.jpg")];
                                  PDict [("url", PStr "high.jpg")]])]]
  = Ok [PDict [("id", PStr "a1"); ("title", PStr "Song");
               ("channel", PStr "YouTube Music");
               ("thumbnailUrl", PStr "high.jpg")]].
Proof. reflexivity. Qed.

(** Fields of an unexpected type are not guarded against: [artists] bound
    to one mapping is run over key by key, and a key has no [get]. *)
Example artists_single_mapping :
  normalize_results
    [PDict [("videoId", PStr "a1");
            ("artists", PDict [("name", PStr "Artist X")])]]
  = Raise AttributeError.
Proof. reflexivity. Qed.

Example artist_name_not_a_string :
  normalize_results
    [PDict [("videoId", PStr "a1");
            ("artists", PList [PDict [("name", PInt 7)]])]]
  = Raise TypeError.
Proof. reflexivity. Qed.

(** ** What the specification states about [normalize_results] *)

(** C1.  On raw records [normalize_results] returns one record per input
    record whose [videoId] is present and not empty, in the order of the
    input and with that [videoId] as its [id]; the records without an
    identifier leave no record, so the output is as long as the input less
    the dropped records. *)
Theorem normalize_results_keeps_identified (items : list pyval) :
  Forall raw_record items ->
  exists out,
    normalize_results items = Ok out
    /\ Forall2 (fun item r => field r "id" = field item "videoId")
         (List.filter has_video_id items) out
    /\ length out =
         (length items
          - length (List.filter (fun i => negb (has_video_id i)) items))%nat.
Proof.
  intros H. exists (map record_spec (List.filter has_video_id items)).
  split; [by apply normalize_results_raw|]. split.
  - apply Forall2_map_spec, Forall_forall. done.
  - rewrite length_map, <- (filter_split_length has_video_id items). lia.
Qed.

Lemma normalize_results_keeps_identified_witness :
  Forall raw_record ex1 /\
  exists out,
    normalize_results ex1 = Ok out
    /\ Forall2 (fun item r => field r "id" = field item "videoId")
         (List.filter has_video_id ex1) out
    /\ length out =
         (length ex1
          - length (List.filter (fun i => negb (has_video_id i)) ex1))%nat.
Proof.
  assert (H : Forall raw_record ex1) by (repeat constructor).
  split; [exact H | exact (normalize_results_keeps_identified ex1 H)].
Defined.

(** Every emitted record, paired with the raw record it comes from. *)
Lemma normalize_results_emitted (R : pyval -> pyval -> Prop) (items : list pyval) :
  Forall raw_record items ->
  (forall item, raw_record item -> has_video_id item = true ->
                R item (record_spec item)) ->
  exists out,
    normalize_results items = Ok out
    /\ Forall2 R (List.filter has_video_id items) out.
Proof.
  intros H HR. exists (map record_spec (List.filter has_video_id items)).
  split; [by apply normalize_results_raw|].
  apply Forall2_map_spec.
  eapply Forall_filter_bool; [|exact H]. simpl. auto.
Qed.

(** C2.  The [channel] of every emitted record follows the ordered
    fallback: the comma-space join of the non-empty artist names if that is
    not empty, else [artist], else [author], else "YouTube Music". *)
Theorem normalize_results_channel (items : list pyval) :
  Forall raw_record items ->
  exists out,
    normalize_results items = Ok out
    /\ Forall2 (fun item r => field r "channel" = PStr (channel_spec item))
         (List.filter has_video_id items) out.
Proof.
  intros H. by apply normalize_results_emitted.
Qed.

Lemma normalize_results_channel_witness :
  Forall raw_record ex1 /\
  exists out,
    normalize_results ex1 = Ok out
    /\ Forall2 (fun item r => field r "channel" = PStr (channel_spec item))
         (List.filter has_video_id ex1) out.
Proof.
  assert (H : Forall raw_record ex1) by (repeat constructor).
  split; [exact H | exact (normalize_results_channel ex1 H)].
Defined.

(** C3.  The [thumbnailUrl] of every emitted record is the [url] of the
    last element of [thumbnails] when that sequence is not empty, and
    [None] when [thumbnails] is absent or empty. *)
Theorem normalize_results_thumbnail (items : list pyval) :
  Forall raw_record items ->
  exists out,
    normalize_results items = Ok out
    /\ Forall2 (fun item r =>
          (forall l t, field item "thumbnails" = PList (l ++ [t]) ->
                       field r "thumbnailUrl" = field t "url")
          /\ (field item "thumbnails" = PNone
               \/ field item "thumbnails" = PList [] ->
              field r "thumbnailUrl" = PNone))
         (List.filter has_video_id items) out.
Proof.
  intros H. apply normalize_results_emitted; [done|].
  intros item _ _. unfold record_spec, thumbnail_spec. cbn [field assoc]. simpl.
  split.
  - intros l t ->. simpl. by rewrite last_snoc.
  - by intros [-> | ->].
Qed.

Lemma normalize_results_thumbnail_witness :
  Forall raw_record ex1 /\
  exists out,
    normalize_results ex1 = Ok out
    /\ Forall2 (fun item r =>
          (forall l t, field item "thumbnails" = PList (l ++ [t]) ->
                       field r "thumbnailUrl" = field t "url")
          /\ (field item "thumbnails" = PNone
               \/ field item "thumbnails" = PList [] ->
              field r "thumbnailUrl" = PNone))
         (List.filter has_video_id ex1) out.
Proof.
  assert (H : Forall raw_record ex1) by (repeat constructor).
  split; [exact H | exact (normalize_results_thumbnail ex1 H)].
Defined.

(** C4.  The [title] of every emitted record is "Unknown title" when the
    raw [title] is absent or the empty string, and the raw title
    otherwise. *)
Theorem normalize_results_title (items : list pyval) :
  Forall raw_record items ->
  exists out,
    normalize_results items = Ok out
    /\ Forall2 (fun item r =>
          (field item "title" = PNone \/ field item "title" = PStr "" ->
           field r "title" = PStr "Unknown title")
          /\ (forall s, field item "title" = PStr s -> s <> "" ->
                        field r "title" = PStr s))
         (List.filter has_video_id items) out.
Proof.
  intros H. apply normalize_results_emitted; [done|].
  intros item _ _. unfold record_spec, title_spec. cbn [field assoc]. simpl.
  split.
  - by intros [-> | ->].
  - intros s -> Hs. simpl. by destruct (String.eqb_spec s "").
Qed.

Lemma normalize_results_title_witness :
  Forall raw_record ex1 /\
  exists out,
    normalize_results ex1 = Ok out
    /\ Forall2 (fun item r =>
          (field item "title" = PNone \/ field item "title" = PStr "" ->
           field r "title" = PStr "Unknown title")
          /\ (forall s, field item "title" = PStr s -> s <> "" ->
                        field r "title" = PStr s))
         (List.filter has_video_id ex1) out.
Proof.
  assert (H : Forall raw_record ex1) by (repeat constructor).
  split; [exact H | exact (normalize_results_title ex1 H)].
Defined.

(** C9.  A raw record with an identifier whose [thumbnails] is not empty
    but whose last element has no [url] (or [url] bound to [None]) is still
    emitted, at its place, with [thumbnailUrl] equal to [None]. *)
Theorem emits_record_when_last_thumbnail_has_no_url
    (pre post : list pyval) (item : pyval) (l : list pyval) (t : pyval) :
  Forall raw_record (pre ++ item :: post) ->
  has_video_id item = true ->
  field item "thumbnails" = PList (l ++ [t]) ->
  field t "url" = PNone ->
  exists out_pre r out_post,
    normalize_results (pre ++ item :: post) = Ok (out_pre ++ r :: out_post)
    /\ normalize_results pre = Ok out_pre
    /\ field r "id" = field item "videoId"
    /\ field r "thumbnailUrl" = PNone.
Proof.
  intros H Hid Hths Hurl.
  pose proof H as [Hpre _]%Forall_app.
  exists (map record_spec (List.filter has_video_id pre)), (record_spec item),
    (map record_spec (List.filter has_video_id post)).
  rewrite !normalize_results_raw by done.
  rewrite List.filter_app. simpl. rewrite Hid, map_app. simpl.
  repeat split; try done.
  unfold thumbnail_spec. rewrite Hths. simpl. by rewrite last_snoc.
Qed.

Lemma emits_record_when_last_thumbnail_has_no_url_witness :
  Forall raw_record (ex1 ++ ex_no_url :: ex1)
  /\ has_video_id ex_no_url = true
  /\ field ex_no_url "thumbnails"
     = PList ([PDict [("url", PStr "low.jpg")]] ++ [PDict [("width", PInt 544)]])
  /\ field (PDict [("width", PInt 544)]) "url" = PNone
  /\ exists out_pre r out_post,
    normalize_results (ex1 ++ ex_no_url :: ex1) = Ok (out_pre ++ r :: out_post)
    /\ normalize_results ex1 = Ok out_pre
    /\ field r "id" = field ex_no_url "videoId"
    /\ field r "thumbnailUrl" = PNone.
Proof.
  assert (H : Forall raw_record (ex1 ++ ex_no_url :: ex1))
    by (repeat constructor).
  repeat split; [exact H|].
  exact (emits_record_when_last_thumbnail_has_no_url ex1 ex1 ex_no_url
           [PDict [("url", PStr "low.jpg")]] (PDict [("width", PInt 544)])
           H eq_refl eq_refl eq_refl).
Defined.

Lemma text_not_empty (v : pyval) (s : string) : text v = Some s -> s <> "".
Proof. by intros [_ ?]%text_Some. Qed.

Lemma title_spec_not_empty (item : pyval) : title_spec item <> "".
Proof.
  unfold title_spec. destruct (text _) eqn:E; [|done].
  by eapply text_not_empty.
Qed.

Lemma channel_spec_not_empty (item : pyval) : channel_spec item <> "".
Proof.
  unfold channel_spec.
  destruct (String.eqb_spec (String.concat ", " (artist_names_spec item)) "");
    simpl; [|done].
  destruct (text (field item "artist")) eqn:E1; [by eapply text_not_empty|].
  destruct (text (field item "author")) eqn:E2; [by eapply text_not_empty|].
  done.
Qed.

Lemma entry_field (k : string) (t : pyval) :
  entry k t = true -> field t k = PNone \/ exists u, field t k = PStr u.
Proof.
  destruct t as [| | | | |d]; try done. simpl.
  destruct (default PNone (assoc d k)); try done; eauto.
Qed.

Lemma thumbnail_spec_shape (item : pyval) :
  raw_record item = true ->
  thumbnail_spec item = PNone \/ exists u, thumbnail_spec item = PStr u.
Proof.
  intros H. unfold thumbnail_spec.
  destruct (last _) as [t|] eqn:E; [|by left].
  apply (entry_field "url").
  assert (Hl : forallb (entry "url") (seq_of (field item "thumbnails")) = true).
  { destruct item; try done. unfold raw_record in H.
    apply andb_true_iff in H as [_ H]. by apply (py_or_seq "url") in H as [_ H]. }
  rewrite forallb_forall in Hl.
  by apply Hl, list_elem_of_In, last_Some_elem_of.
Qed.

(** C10.  With string-typed raw fields, every emitted record has exactly
    the keys [id], [title], [channel] and [thumbnailUrl]; [id], [title]
    and [channel] are non-empty strings, and only [thumbnailUrl] may be
    [None]. *)
Theorem normalize_results_shape (items : list pyval) :
  Forall raw_record items ->
  exists out, normalize_results items = Ok out /\ Forall emitted_shape out.
Proof.
  intros H. exists (map record_spec (List.filter has_video_id items)).
  split; [by apply normalize_results_raw|].
  apply Forall_map. eapply Forall_filter_bool; [|exact H]. simpl.
  intros item Hraw%Is_true_true (s & Hs & Hne)%has_video_id_text.
  exists s, (title_spec item), (channel_spec item), (thumbnail_spec item).
  unfold record_spec. rewrite Hs.
  repeat split;
    auto using title_spec_not_empty, channel_spec_not_empty, thumbnail_spec_shape.
Qed.

Lemma normalize_results_shape_witness :
  Forall raw_record (ex_no_url :: ex1) /\
  exists out,
    normalize_results (ex_no_url :: ex1) = Ok out /\ Forall emitted_shape out.
Proof.
  assert (H : Forall raw_record (ex_no_url :: ex1)) by (repeat constructor).
  split; [exact H | exact (normalize_results_shape _ H)].
Defined.

(** ** The identifier read once *)

(** The duplicated read returns what one read returns, whatever the item:
    a value, or the [AttributeError] of an item that is no mapping. *)
Lemma video_id_read_twice (item : pyval) :
  py_or (py_get item "videoId") (py_get item "videoId") = py_get item "videoId".
Proof.
  destruct item; try done. apply py_or_same.
Qed.

Lemma normalize_item_single_read_eq (results : list pyval) (item : pyval) :
  normalize_item results item = normalize_item_single_read results item.
Proof.
  unfold normalize_item, normalize_item_single_read.
  by rewrite video_id_read_twice.
Qed.

(** C7.  Reading [videoId] once in the place of
    [item.get("videoId") or item.get("videoId")] changes nothing: on every
    input, well-formed or not, the two functions return the same records or
    raise the same exception. *)
Theorem normalize_results_single_read_eq (items : list pyval) :
  normalize_results items = normalize_results_single_read items.
Proof.
  unfold normalize_results, normalize_results_single_read.
  generalize (@nil pyval) as results.
  induction items as [|item items IH]; intros results; simpl; [done|].
  rewrite normalize_item_single_read_eq.
  destruct (normalize_item_single_read results item); simpl; [apply IH|done].
Qed.

(** ** [json.dumps] *)

Lemma bind_Ok_inv {A B} (m : result A) (f : A -> result B) (b : B) :
  m ≫= f = Ok b -> exists a, m = Ok a /\ f a = Ok b.
Proof. destruct m as [a|e]; [eauto|done]. Qed.

Lemma mapM_Ok_map {A B} (f : A -> result B) (g : A -> B)
    (l : list A) (ys : list B) :
  Forall (fun x => forall y, f x = Ok y -> y = g x) l ->
  mapM f l = Ok ys -> ys = map g l.
Proof.
  intros H. revert ys. induction H as [|x l Hx _ IH]; intros ys; simpl.
  - by intros [= <-].
  - intros (y & Hy & (ys' & Hys' & [= <-])%bind_Ok_inv)%bind_Ok_inv.
    by rewrite (Hx _ Hy), (IH _ Hys').
Qed.

(** When the encoder returns, it returns [json_text]. *)
Lemma json_encode_text (py : interpreter) (v : pyval) :
  forall (room : nat) (s : string),
    json_encode py v room = Ok s -> s = json_text v.
Proof.
  induction v as [|b|n|s0|l IH|d IH] using pyval_ind'; intros room s;
    cbn [json_encode json_text].
  - by intros [= <-].
  - by intros [= <-].
  - destruct (exceeds_max_str_digits py n); [done|]. by intros [= <-].
  - by intros [= <-].
  - destruct room as [|room]; [done|].
    intros (parts & Hparts & [= <-])%bind_Ok_inv.
    apply mapM_Ok_map with (g := json_text) in Hparts; [by subst|].
    eapply Forall_impl; [exact IH|]. intros x Hx y. apply Hx.
  - destruct room as [|room]; [done|].
    intros (parts & Hparts & [= <-])%bind_Ok_inv.
    apply mapM_Ok_map
      with (g := fun kv => json_string (fst kv) +:+ ": " +:+ json_text (snd kv))
      in Hparts; [by subst|].
    eapply Forall_impl; [exact IH|]. simpl.
    intros kv Hkv y (part & Hpart & [= <-])%bind_Ok_inv.
    by rewrite (Hkv _ _ Hpart).
Qed.

Lemma json_dumps_text (py : interpreter) (v : pyval) (s : string) :
  json_dumps py v = Ok s -> s = json_text v.
Proof. apply json_encode_text. Qed.

(** ** What the specification states about [main] *)

(** C5.  With fewer than two positional arguments (the program name
    apart) [main] prints the JSON object of the usage error and exits with
    status 1: the run has no other event, so no search is made and no
    results are printed. *)
Theorem main_usage_error
    (py : interpreter) (lib : ytmusicapi) (argv : list string) :
  (length (tail argv) < 2)%nat ->
  main py lib argv = ([EPrint usage_line], SystemExit 1)
  /\ exit_status (main py lib argv) = 1.
Proof.
  intros H. assert (Hlt : (length argv <? 3)%nat = true).
  { apply Nat.ltb_lt. destruct argv; simpl in *; lia. }
  unfold main. rewrite Hlt. done.
Qed.

Lemma main_usage_error_witness :
  (length (tail ["ytmusic_search.py"; "lofi"]) < 2)%nat
  /\ main py_ex lib_ex1 ["ytmusic_search.py"; "lofi"]
     = ([EPrint usage_line], SystemExit 1)
  /\ exit_status (main py_ex lib_ex1 ["ytmusic_search.py"; "lofi"]) = 1.
Proof.
  split; [simpl; lia|].
  apply (main_usage_error py_ex lib_ex1 ["ytmusic_search.py"; "lofi"]).
  simpl; lia.
Defined.

(** Whatever the collaborator does, a search that [main] makes is a search
    for the first argument of the command line, among the songs, for 8
    results. *)
Lemma main_search_calls (py : interpreter) (lib : ytmusicapi)
    (argv : list string) (query filter : string) (limit : Z) :
  ESearch query filter limit ∈ fst (main py lib argv) ->
  argv !! 1%nat = Some query /\ filter = "songs" /\ limit = 8.
Proof.
  assert (Hone : forall line, ESearch query filter limit ∈ [EPrint line] -> False).
  { intros line H. apply list_elem_of_singleton in H. discriminate H. }
  unfold main.
  destruct argv as [|prog [|q [|headers_path rest]]]; simpl;
    try (by intros ?%Hone).
  unfold call_YTMusic, call_search.
  destruct (YTMusic lib headers_path) as [c|e]; simpl.
  2: { intros H%list_elem_of_singleton. discriminate H. }
  assert (Hcall : ESearch query filter limit = ESearch q "songs" 8 ->
                  Some q = Some query /\ filter = "songs" /\ limit = 8).
  { by intros [= -> -> ->]. }
  destruct (search lib c q "songs" 8) as [items|e]; simpl;
    [destruct (normalize_results items) as [results|e]; simpl;
     [destruct (json_dumps py (PDict [("results", PList results)])); simpl|]|];
    intros H; repeat (apply elem_of_cons in H as [H|H]; [try discriminate H|]);
    try (by apply Hcall); by apply elem_of_nil in H.
Qed.

Lemma string_app_assoc (a b c : string) : (a +:+ b) +:+ c = a +:+ (b +:+ c).
Proof.
  induction a as [|x a IH]; [done|].
  change (String x ((a +:+ b) +:+ c) = String x (a +:+ (b +:+ c))).
  by f_equal.
Qed.

(** C8.  On a successful invocation (the client is built, the search and
    the normalization return, and [json.dumps] returns for the results)
    [main] builds the client from the headers path, calls its [search]
    with the query of the command line, the filter "songs" and the limit
    8, and prints the object whose [results] are the normalized records;
    the process ends with status 0. *)
Theorem main_success (py : interpreter) (lib : ytmusicapi)
    (prog query headers_path : string) (rest : list string)
    (ytmusic : client lib) (items results : list pyval) (line : string) :
  YTMusic lib headers_path = Ok ytmusic ->
  search lib ytmusic query "songs" 8 = Ok items ->
  normalize_results items = Ok results ->
  json_dumps py (PDict [("results", PList results)]) = Ok line ->
  main py lib (prog :: query :: headers_path :: rest) =
    ([EYTMusic headers_path;
      ESearch query "songs" 8;
      EPrint ("{" +:+ dquote +:+ "results" +:+ dquote +:+ ": ["
              +:+ String.concat ", " (map json_text results) +:+ "]}")],
     Value tt)
  /\ exit_status (main py lib (prog :: query :: headers_path :: rest)) = 0.
Proof.
  intros Hc Hs Hn Hj. unfold main, call_YTMusic, call_search. simpl.
  rewrite Hc. simpl. rewrite Hs. simpl. rewrite Hn. simpl.
  rewrite Hj. simpl. apply json_dumps_text in Hj as ->.
  cbn [json_text map fst snd String.concat].
  rewrite !string_app_assoc. done.
Qed.

Lemma main_success_witness :
  YTMusic lib_ex1 "headers.json" = Ok "headers.json"
  /\ search lib_ex1 "headers.json" "lofi" "songs" 8 = Ok ex1
  /\ normalize_results ex1 = Ok (map record_spec (List.filter has_video_id ex1))
  /\ json_dumps py_ex
       (PDict [("results",
                PList (map record_spec (List.filter has_video_id ex1)))])
     = Ok (json_text
             (PDict [("results",
                      PList (map record_spec (List.filter has_video_id ex1)))]))
  /\ main py_ex lib_ex1 ["ytmusic_search.py"; "lofi"; "headers.json"] =
      ([EYTMusic "headers.json";
        ESearch "lofi" "songs" 8;
        EPrint ("{" +:+ dquote +:+ "results" +:+ dquote +:+ ": ["
                +:+ String.concat ", "
                      (map json_text
                         (map record_spec (List.filter has_video_id ex1)))
                +:+ "]}")],
       Value tt)
  /\ exit_status
       (main py_ex lib_ex1 ["ytmusic_search.py"; "lofi"; "headers.json"]) = 0.
Proof.
  split; [reflexivity|]. split; [reflexivity|]. split; [reflexivity|].
  split; [reflexivity|].
  exact (main_success py_ex lib_ex1 "ytmusic_search.py" "lofi" "headers.json"
           [] "headers.json" ex1 _ _ eq_refl eq_refl eq_refl eq_refl).
Defined.

(** ** The store embedding against the value embedding *)

Lemma Forall2_impl_each {A B} (R R' : A -> B -> Prop) (l : list A) (k : list B) :
  Forall (fun x => forall y, R x y -> R' x y) l ->
  Forall2 R l k -> Forall2 R' l k.
Proof.
  intros H HF. induction HF as [|x y l k Hxy _ IH]; [done|].
  apply Forall_cons in H as [? ?]. constructor; auto.
Qed.

Lemma repr_mono (r r' : loc) (σ σ' : store) (pv : pyval) (v : val) :
  (forall l o, l <> r -> σ !! l = Some o -> l <> r' /\ σ' !! l = Some o) ->
  repr r σ pv v -> repr r' σ' pv v.
Proof.
  intros Hσ. revert v.
  induction pv as [| | | |pl IH|pd IH] using pyval_ind'; intros v Hv;
    inversion Hv as [| | | |l vs ? Hl Hlook HF|l d ? Hl Hlook HF]; subst;
    try constructor.
  - destruct (Hσ _ _ Hl Hlook). econstructor; [done..|].
    by eapply Forall2_impl_each.
  - destruct (Hσ _ _ Hl Hlook). econstructor; [done..|].
    eapply Forall2_impl_each; [|exact HF].
    eapply Forall_impl; [exact IH|]. simpl. intros kv Hkv x [? ?]. auto.
Qed.

Lemma repr_prefix (r : loc) (σ σ' : store) (pv : pyval) (v : val) :
  σ `prefix_of` σ' -> repr r σ pv v -> repr r σ' pv v.
Proof.
  intros Hp. apply repr_mono. intros l o ? Hl. split; [done|].
  by eapply prefix_lookup_Some.
Qed.

Lemma repr_grows (r : loc) (σ σ' : store) (pv : pyval) (v : val) :
  grows r σ σ' -> repr r σ pv v -> repr r σ' pv v.
Proof. intros Hg. apply repr_mono. intros l o ? Hl. split; [done|]. by apply Hg. Qed.

Lemma prefix_grows (r : loc) (σ σ' : store) : σ `prefix_of` σ' -> grows r σ σ'.
Proof. intros Hp l o _ Hl. by eapply prefix_lookup_Some. Qed.

Lemma grows_trans (r : loc) (σ1 σ2 σ3 : store) :
  grows r σ1 σ2 -> grows r σ2 σ3 -> grows r σ1 σ3.
Proof. intros H1 H2 l o ? ?. apply H2, H1; done. Qed.

(** *** The operations, on the store and on values *)

Lemma sim_intro {A B} (T : store -> store -> Prop) (R : store -> A -> B -> Prop)
    (σ σ' : store) (p : result A) (m : st B) (res : result B) :
  m σ = (σ', res) -> T σ σ' -> outcome_rel (R σ') p res -> sim T R σ p m.
Proof. intros E ? ?. unfold sim. rewrite E. done. Qed.

Lemma sim_bind {A A' B B'} (T1 T2 T3 : store -> store -> Prop)
    (R : store -> A -> B -> Prop) (R' : store -> A' -> B' -> Prop)
    (σ : store) (p : result A) (f : A -> result A') (m : st B) (g : B -> st B') :
  (forall x y, T1 x y -> T3 x y) ->
  (forall x y z, T1 x y -> T2 y z -> T3 x z) ->
  sim T1 R σ p m ->
  (forall σ' a b, T1 σ σ' -> R σ' a b -> sim T2 R' σ' (f a) (g b)) ->
  sim T3 R' σ (p ≫= f) (m ≫= g).
Proof.
  intros H13 H123 [HT Hm] Hk. unfold sim.
  change ((m ≫= g) σ) with
    (match m σ with
     | (σ', Ok a) => g a σ'
     | (σ', Raise e) => (σ', Raise e)
     end).
  destruct (m σ) as [σ' res]. simpl in *.
  destruct Hm as [a b Hab|e]; simpl.
  - destruct (Hk σ' a b HT Hab) as [HT' Hg]. split; eauto.
  - split; [auto|constructor].
Qed.

(** A step of the store embedding that the value embedding does not have:
    it leaves the store as it is and returns [b]. *)
Lemma sim_run {A B B'} (T : store -> store -> Prop) (R : store -> A -> B' -> Prop)
    (σ : store) (p : result A) (m : st B) (b : B) (g : B -> st B') :
  m σ = (σ, Ok b) -> sim T R σ p (g b) -> sim T R σ p (m ≫= g).
Proof.
  intros E H. unfold sim, mbind, st_bind. rewrite E. exact H.
Qed.

Lemma sim_ret {A B} (T : store -> store -> Prop) (R : store -> A -> B -> Prop)
    (σ : store) (a : A) (b : B) :
  T σ σ -> R σ a b -> sim T R σ (Ok a) (mret b).
Proof. intros; split; [done|by constructor]. Qed.

Lemma sim_raise {A B} (T : store -> store -> Prop) (R : store -> A -> B -> Prop)
    (σ : store) (e : exn) :
  T σ σ -> sim T R σ (Raise e) (st_raise e).
Proof. intros; split; [done|by constructor]. Qed.

Lemma repr_assoc (r : loc) (σ : store) (k : string)
    (pd : list (string * pyval)) (d : list (string * val)) :
  Forall2 (fun p x => fst p = fst x /\ repr r σ (snd p) (snd x)) pd d ->
  repr r σ (default PNone (assoc pd k)) (default VNone (assoc d k)).
Proof.
  induction 1 as [|[k1 p] [k2 x] pd d [Hk Hpx] _ IH]; simpl in *;
    [constructor|].
  subst k2. by destruct (String.eqb k1 k).
Qed.

Lemma st_deref_Some (σ : store) (l : loc) (o : obj) :
  σ !! l = Some o -> st_deref l σ = (σ, Ok o).
Proof. intros H. unfold st_deref. by rewrite H. Qed.

Lemma sim_get (r : loc) (σ : store) (pv : pyval) (v : val) (k : string) :
  repr r σ pv v ->
  sim prefix (repr r) σ (py_get pv k) (st_get v k).
Proof.
  destruct 1 as [| | | |l vs pl Hl Hlook HF|l d pd Hl Hlook HF];
    try (by apply sim_raise).
  - eapply sim_intro; [|done|constructor].
    unfold st_get, mbind, st_bind. by rewrite (st_deref_Some _ _ _ Hlook).
  - eapply sim_intro; [|done|constructor; by apply repr_assoc].
    unfold st_get, mbind, st_bind. by rewrite (st_deref_Some _ _ _ Hlook).
Qed.

Lemma st_truthy_repr (r : loc) (σ : store) (pv : pyval) (v : val) :
  repr r σ pv v -> st_truthy v σ = (σ, Ok (truthy pv)).
Proof.
  destruct 1 as [| | | |l vs pl Hl Hlook HF|l d pd Hl Hlook HF]; try done;
    unfold st_truthy, mbind, st_bind; rewrite (st_deref_Some _ _ _ Hlook);
    simpl; by rewrite (Forall2_length _ _ _ HF).
Qed.

Lemma sim_or (r : loc) (σ : store) (pa pb : result pyval) (a b : st val) :
  sim prefix (repr r) σ pa a ->
  (forall σ', σ `prefix_of` σ' -> sim prefix (repr r) σ' pb b) ->
  sim prefix (repr r) σ (py_or pa pb) (st_or a b).
Proof.
  intros Ha Hb. unfold py_or, st_or.
  eapply sim_bind; [done|by etrans|exact Ha|].
  intros σ' x y Hσ' Hxy.
  eapply sim_run; [by eapply st_truthy_repr|].
  destruct (truthy x); [by apply sim_ret|by apply Hb].
Qed.

Lemma Forall2_repr_prefix (r : loc) (σ σ' : store)
    (pl : list pyval) (vs : list val) :
  σ `prefix_of` σ' -> Forall2 (repr r σ) pl vs -> Forall2 (repr r σ') pl vs.
Proof.
  intros Hp HF. eapply Forall2_impl; [exact HF|].
  intros ? ?. by apply repr_prefix.
Qed.

Lemma repr_chars (r : loc) (σ : store) (s : string) :
  Forall2 (repr r σ) (chars s) (vchars s).
Proof. induction s; simpl; repeat constructor; done. Qed.

Lemma repr_keys (r : loc) (σ : store)
    (pd : list (string * pyval)) (d : list (string * val)) :
  Forall2 (fun p x => fst p = fst x /\ repr r σ (snd p) (snd x)) pd d ->
  Forall2 (repr r σ) (map (fun kv => PStr (fst kv)) pd)
                     (map (fun kv => VStr (fst kv)) d).
Proof.
  induction 1 as [|p x pd d [Hk _] _ IH]; simpl; [done|].
  rewrite Hk. repeat constructor; done.
Qed.

Lemma sim_iter (r : loc) (σ : store) (pv : pyval) (v : val) :
  repr r σ pv v ->
  sim prefix (fun σ' => Forall2 (repr r σ')) σ (py_iter pv) (st_iter v).
Proof.
  destruct 1 as [| | |s|l vs pl Hl Hlook HF|l d pd Hl Hlook HF];
    try (by apply sim_raise).
  - apply sim_ret; [done|apply repr_chars].
  - eapply sim_intro; [|done|by constructor].
    unfold st_iter, mbind, st_bind. by rewrite (st_deref_Some _ _ _ Hlook).
  - eapply sim_intro; [|done|constructor; by apply repr_keys].
    unfold st_iter, mbind, st_bind. by rewrite (st_deref_Some _ _ _ Hlook).
Qed.

Lemma sim_artist_names (r : loc) (σ : store) (pl : list pyval) (vs : list val) :
  Forall2 (repr r σ) pl vs ->
  sim prefix (fun σ' => Forall2 (repr r σ')) σ
    (artist_names pl) (st_artist_names vs).
Proof.
  intros HF. revert σ vs HF.
  induction pl as [|p pl IH]; intros σ vs HF;
    inversion HF as [|? x ? vs' Hpx HF']; subst.
  { by apply sim_ret. }
  simpl. eapply sim_bind; [done|by etrans|by apply sim_get|].
  intros σ1 c c' Hσ1 Hc.
  eapply sim_run; [by eapply st_truthy_repr|].
  apply (repr_prefix _ _ _ _ _ Hσ1) in Hpx.
  apply (Forall2_repr_prefix _ _ _ _ _ Hσ1) in HF'.
  destruct (truthy c); [|by apply IH].
  eapply sim_bind; [done|by etrans|by apply sim_get|].
  intros σ2 n n' Hσ2 Hn.
  apply (Forall2_repr_prefix _ _ _ _ _ Hσ2) in HF'.
  eapply sim_bind; [done|by etrans|by apply IH|].
  intros σ3 ns ns' Hσ3 Hns.
  apply sim_ret; [done|]. constructor; [|done].
  by eapply repr_prefix.
Qed.

Lemma sim_alloc_list (r : loc) (σ : store) (pl : list pyval) (vs : list val) :
  (r < length σ)%nat ->
  Forall2 (repr r σ) pl vs ->
  sim prefix (fun σ' pl v => repr r σ' (PList pl) v) σ
    (Ok pl) (st_alloc (OList vs)).
Proof.
  intros Hr HF. eapply sim_intro; [done|by apply prefix_app_r|].
  constructor. econstructor.
  - lia.
  - by apply list_lookup_middle.
  - eapply Forall2_repr_prefix; [|done]. by apply prefix_app_r.
Qed.

Lemma vstrs_repr (r : loc) (σ : store) (pl : list pyval) (vs : list val) :
  Forall2 (repr r σ) pl vs -> vstrs vs = strs pl.
Proof.
  induction 1 as [|p x pl vs Hpx _ IH]; simpl; [done|].
  destruct Hpx; try done. by rewrite IH.
Qed.

Lemma sim_join (r : loc) (σ : store) (sep : string) (pl : list pyval) (v : val) :
  repr r σ (PList pl) v ->
  sim prefix (repr r) σ (py_join sep pl) (st_join sep v).
Proof.
  intros Hv. inversion Hv as [| | | |l vs ? Hl Hlook HF|]; subst.
  unfold st_join, py_join.
  eapply sim_run.
  { unfold st_iter, mbind, st_bind. by rewrite (st_deref_Some _ _ _ Hlook). }
  rewrite (vstrs_repr _ _ _ _ HF).
  destruct (strs pl); simpl; [apply sim_ret|apply sim_raise]; try done.
  constructor.
Qed.

Lemma sim_last (r : loc) (σ : store) (pv : pyval) (v : val) :
  repr r σ pv v ->
  sim prefix (repr r) σ (py_last pv) (st_last v).
Proof.
  destruct 1 as [| | |s|l vs pl Hl Hlook HF|l d pd Hl Hlook HF];
    try (by apply sim_raise).
  - simpl. destruct (Forall2_last _ _ _ (repr_chars r σ s));
      [by apply sim_ret|by apply sim_raise].
  - eapply sim_run; [by apply st_deref_Some|]. simpl.
    destruct (Forall2_last _ _ _ HF); [by apply sim_ret|by apply sim_raise].
  - eapply sim_run; [by apply st_deref_Some|]. by apply sim_raise.
Qed.

(** *** One turn of the loop *)

Lemma results_rel_prefix (r : loc) (σ σ' : store) (presults : list pyval) (u : unit) :
  σ `prefix_of` σ' -> results_rel r σ presults u -> results_rel r σ' presults u.
Proof.
  intros Hp (rs & Hr & HF). exists rs. split.
  - by eapply prefix_lookup_Some.
  - by eapply Forall2_repr_prefix.
Qed.

Lemma results_rel_lt (r : loc) (σ : store) (presults : list pyval) (u : unit) :
  results_rel r σ presults u -> (r < length σ)%nat.
Proof. intros (rs & Hr & _). by eapply lookup_lt_Some. Qed.

Lemma sim_bind_pp {A A' B B'}
    (R : store -> A -> B -> Prop) (R' : store -> A' -> B' -> Prop)
    (σ : store) (p : result A) (f : A -> result A') (m : st B) (g : B -> st B') :
  sim prefix R σ p m ->
  (forall σ' a b, σ `prefix_of` σ' -> R σ' a b -> sim prefix R' σ' (f a) (g b)) ->
  sim prefix R' σ (p ≫= f) (m ≫= g).
Proof. apply sim_bind; [done|]. intros x y z ? ?. by etrans. Qed.

Lemma sim_bind_pg {A A' B B'} (r : loc)
    (R : store -> A -> B -> Prop) (R' : store -> A' -> B' -> Prop)
    (σ : store) (p : result A) (f : A -> result A') (m : st B) (g : B -> st B') :
  sim prefix R σ p m ->
  (forall σ' a b, σ `prefix_of` σ' -> R σ' a b -> sim (grows r) R' σ' (f a) (g b)) ->
  sim (grows r) R' σ (p ≫= f) (m ≫= g).
Proof.
  apply sim_bind; [apply prefix_grows|].
  intros x y z ? ?. eapply grows_trans; [by apply prefix_grows|done].
Qed.

(** A step that only the store embedding has, and that returns what
    denotes the value [a] at hand. *)
Lemma sim_store_step {A A' B B'} (r : loc)
    (R : store -> A -> B -> Prop) (R' : store -> A' -> B' -> Prop)
    (σ : store) (a : A) (p : result A') (m : st B) (g : B -> st B') :
  sim prefix R σ (Ok a) m ->
  (forall σ' b, σ `prefix_of` σ' -> R σ' a b -> sim (grows r) R' σ' p (g b)) ->
  sim (grows r) R' σ p (m ≫= g).
Proof.
  intros [HT Hm] Hk. unfold sim.
  change ((m ≫= g) σ) with
    (match m σ with
     | (σ', Ok a) => g a σ'
     | (σ', Raise e) => (σ', Raise e)
     end).
  destruct (m σ) as [σ' res]. simpl in *.
  inversion Hm as [? b Hab|]; subst.
  destruct (Hk σ' b HT Hab) as [HT' Hg]. split; [|done].
  eapply grows_trans; [by apply prefix_grows|done].
Qed.

Lemma sim_alloc_empty (r : loc) (σ : store) :
  (r < length σ)%nat ->
  sim prefix (repr r) σ (Ok (PList [])) (st_alloc (OList [])).
Proof.
  intros Hr. eapply sim_intro; [done|by apply prefix_app_r|].
  constructor. econstructor; [lia|by apply list_lookup_middle|done].
Qed.

(** The record is built and appended to the list in the cell [r]. *)
Lemma sim_emit (r : loc) (σ : store) (presults : list pyval)
    (pd : list (string * pyval)) (d : list (string * val)) :
  results_rel r σ presults tt ->
  Forall2 (fun p x => fst p = fst x /\ repr r σ (snd p) (snd x)) pd d ->
  sim (grows r) (results_rel r) σ (Ok (presults ++ [PDict pd]))
    (record ← st_alloc (ODict d); st_append (VRef r) record).
Proof.
  intros (rs & Hr & HF) Hd.
  assert (Hlt : (r < length σ)%nat) by by eapply lookup_lt_Some.
  assert (Hg : grows r σ (<[r := OList (rs ++ [VRef (length σ)])]> (σ ++ [ODict d]))).
  { intros l o Hl Hlook. rewrite list_lookup_insert_ne by done.
    by apply lookup_app_l_Some. }
  eapply sim_intro; [|exact Hg|].
  { unfold mbind, st_bind, st_alloc, st_append.
    by rewrite (lookup_app_l_Some _ _ _ _ Hr). }
  constructor. eexists. split.
  { apply list_lookup_insert_eq. rewrite length_app. lia. }
  apply Forall2_app.
  - eapply Forall2_impl; [exact HF|]. intros ? ?. by apply repr_grows.
  - constructor; [|done]. econstructor.
    + lia.
    + rewrite list_lookup_insert_ne by lia. by apply list_lookup_middle.
    + eapply Forall2_impl; [exact Hd|]. simpl. intros ? ? [? ?].
      split; [done|]. by eapply repr_grows.
Qed.

(** What is known in a store is known in the stores that extend it. *)
Ltac lift H :=
  lazymatch type of H with
  | ?σ `prefix_of` _ =>
      repeat match goal with
        | X : repr _ σ _ _ |- _ => apply (repr_prefix _ _ _ _ _ H) in X
        | X : Forall2 (repr _ σ) _ _ |- _ =>
            apply (Forall2_repr_prefix _ _ _ _ _ H) in X
        | X : results_rel _ σ _ _ |- _ =>
            apply (results_rel_prefix _ _ _ _ _ H) in X
        end;
      clear H
  end.

Tactic Notation "sim_next" tactic3(lem) "as" ident(x) ident(y) ident(Hxy) :=
  let H := fresh "Hext" in
  eapply sim_bind_pg; [lem | intros ? x y H Hxy; cbv beta in Hxy; lift H].

Tactic Notation "sim_arg" tactic3(lem) "as" ident(x) ident(y) ident(Hxy) :=
  let H := fresh "Hext" in
  eapply sim_bind_pp; [lem | intros ? x y H Hxy; cbv beta in Hxy; lift H].

Lemma sim_get_or (r : loc) (σ : store) (pv : pyval) (v : val) (k : string)
    (pb : result pyval) (b : st val) :
  repr r σ pv v ->
  (forall σ', σ `prefix_of` σ' -> sim prefix (repr r) σ' pb b) ->
  sim prefix (repr r) σ (py_or (py_get pv k) pb) (st_or (st_get v k) b).
Proof. intros Hv Hb. apply sim_or; [by apply sim_get|done]. Qed.

Lemma sim_str (r : loc) (σ : store) (s : string) :
  sim prefix (repr r) σ (Ok (PStr s)) (mret (VStr s)).
Proof. apply sim_ret; [done|constructor]. Qed.

Lemma sim_get_or_empty (r : loc) (σ : store) (pv : pyval) (v : val) (k : string) :
  (r < length σ)%nat ->
  repr r σ pv v ->
  sim prefix (repr r) σ (py_or (py_get pv k) (Ok (PList [])))
    (st_or (st_get v k) (st_alloc (OList []))).
Proof.
  intros Hr Hv. apply sim_get_or; [done|]. intros σ' Hσ'.
  apply sim_alloc_empty. apply prefix_length in Hσ'. lia.
Qed.

Lemma sim_normalize_item (r : loc) (σ : store)
    (presults : list pyval) (pitem : pyval) (item : val) :
  results_rel r σ presults tt ->
  repr r σ pitem item ->
  sim (grows r) (results_rel r) σ
    (normalize_item presults pitem) (st_normalize_item (VRef r) item).
Proof.
  intros Hres Hitem. unfold normalize_item, st_normalize_item.
  sim_next (apply sim_get_or; [done|]; intros σ' Hσ';
            apply sim_get; by eapply repr_prefix)
    as video_id video_id' Hvid.
  eapply sim_run; [by eapply st_truthy_repr|].
  destruct (truthy video_id); simpl negb; cbv iota;
    [|apply sim_ret; [by apply prefix_grows|done]].
  sim_next (apply sim_get_or; [done|]; intros; apply sim_str)
    as title title' Htitle.
  sim_next (apply sim_get_or_empty; [by eapply results_rel_lt|done])
    as artists artists' Hartists.
  sim_next (by apply sim_iter) as elems elems' Helems.
  sim_next (by apply sim_artist_names) as names names' Hnames.
  eapply sim_store_step;
    [apply sim_alloc_list; [by eapply results_rel_lt|done]|].
  intros ? names_list Hext Hnames_list; cbv beta in Hnames_list; lift Hext.
  sim_next (by apply sim_join) as channel channel' Hchannel.
  eapply sim_run; [by eapply st_truthy_repr|].
  sim_next (destruct (truthy channel); simpl negb; cbv iota;
            [by apply sim_ret
            |apply sim_or; [by apply sim_get_or; [|intros; apply sim_get; eapply repr_prefix]
                           |intros; apply sim_str]])
    as channel0 channel0' Hchannel0.
  sim_next (apply sim_get_or_empty; [by eapply results_rel_lt|done])
    as thumbnails thumbnails' Hthumbnails.
  eapply sim_run; [by eapply st_truthy_repr|].
  sim_next (destruct (truthy thumbnails);
            [sim_arg (by apply sim_last) as t t' Ht; by apply sim_get
            |apply sim_ret; [done|constructor]])
    as thumbnail_url thumbnail_url' Hurl.
  apply sim_emit; [done|].
  repeat (constructor; [done|]). constructor.
Qed.

(** *** The loop and the function *)

Lemma st_bind_Ok {A B} (m : st A) (g : A -> st B) (σ σ' : store) (a : A) :
  m σ = (σ', Ok a) -> (m ≫= g) σ = g a σ'.
Proof. intros E. unfold mbind, st_bind. by rewrite E. Qed.

Lemma st_iter_list (σ : store) (l : loc) (vs : list val) :
  σ !! l = Some (OList vs) -> st_iter (VRef l) σ = (σ, Ok vs).
Proof.
  intros H. unfold st_iter.
  by rewrite (st_bind_Ok _ _ σ σ (OList vs)) by by apply st_deref_Some.
Qed.

Lemma sim_normalize_loop (r : loc) (pitems : list pyval) :
  forall (σ : store) (items : list val) (presults : list pyval),
    results_rel r σ presults tt ->
    Forall2 (repr r σ) pitems items ->
    sim (grows r) (results_rel r) σ
      (normalize_loop pitems presults) (st_normalize_loop items (VRef r)).
Proof.
  induction pitems as [|pitem pitems IH]; intros σ items presults Hres HF;
    inversion HF as [|? item ? items' Hitem HF']; subst; simpl.
  - apply sim_ret; [by intros ? ?|done].
  - eapply sim_bind;
      [done|apply grows_trans|by apply sim_normalize_item|].
    intros σ' presults' [] Hg Hres'. apply IH; [done|].
    eapply Forall2_impl; [exact HF'|]. intros ? ?. by apply repr_grows.
Qed.

Lemma lookup_prefix (σ σ' : store) :
  (forall l o, σ !! l = Some o -> σ' !! l = Some o) -> σ `prefix_of` σ'.
Proof.
  revert σ'. induction σ as [|o σ IH]; intros σ' H; [apply prefix_nil|].
  destruct σ' as [|o' σ']; [by specialize (H 0%nat o eq_refl)|].
  specialize (H 0%nat o eq_refl) as Ho. simpl in Ho. injection Ho as ->.
  apply prefix_cons, IH. intros l c Hl. by apply (H (S l)).
Qed.

Lemma repr_represents (r : loc) (σ : store) (pv : pyval) (v : val) :
  repr r σ pv v -> represents σ pv v.
Proof.
  apply repr_mono. intros l o _ Hl. split; [|done].
  apply lookup_lt_Some in Hl. lia.
Qed.

(** The store embedding against the value embedding: run on a list that
    denotes [pitems], [st_normalize_results] raises what
    [normalize_results pitems] raises or returns a list that denotes what
    it returns, and every cell the store had is as it was. *)
Lemma st_normalize_results_sim (σ : store) (pitems : list pyval) (items : val) :
  represents σ (PList pitems) items ->
  σ `prefix_of` fst (st_normalize_results items σ)
  /\ outcome_rel
       (fun pout v => represents (fst (st_normalize_results items σ)) (PList pout) v)
       (normalize_results pitems) (snd (st_normalize_results items σ)).
Proof.
  intros Hitems.
  inversion Hitems as [| | | |l vs ? Hl Hlook HF|]; subst.
  assert (H1 : σ `prefix_of` σ ++ [OList []]) by by apply prefix_app_r.
  assert (Hres : results_rel (length σ) (σ ++ [OList []]) [] tt).
  { exists []. split; [by apply list_lookup_middle|done]. }
  pose proof (sim_normalize_loop _ pitems _ vs [] Hres
                (Forall2_repr_prefix _ _ _ _ _ H1 HF)) as [Hg Hout].
  assert (E : st_normalize_results (VRef l) σ =
              match st_normalize_loop vs (VRef (length σ)) (σ ++ [OList []]) with
              | (σ', Ok _) => (σ', Ok (VRef (length σ)))
              | (σ', Raise e) => (σ', Raise e)
              end).
  { unfold st_normalize_results.
    rewrite (st_bind_Ok _ _ σ (σ ++ [OList []]) (VRef (length σ))) by done.
    rewrite (st_bind_Ok _ _ _ (σ ++ [OList []]) vs); [done|].
    apply st_iter_list. by eapply prefix_lookup_Some. }
  rewrite E. clear E.
  destruct (st_normalize_loop vs (VRef (length σ)) (σ ++ [OList []]))
    as [σ2 res]. simpl in Hg, Hout.
  assert (H2 : σ `prefix_of` σ2).
  { apply lookup_prefix. intros k o Hk. apply Hg.
    - apply lookup_lt_Some in Hk. lia.
    - by apply lookup_app_l_Some. }
  unfold normalize_results.
  destruct Hout as [pout [] (rs & Hr & Hrs)|e]; simpl; (split; [done|]);
    constructor.
  econstructor; [|exact Hr|].
  - apply lookup_lt_Some in Hr. lia.
  - eapply Forall2_impl; [exact Hrs|]. intros ? ?. apply repr_represents.
Qed.

(** A run on [store_ex]: the cell 8 is the list returned, the cells 9 and
    11 are the lists of names the comprehension built, the cells 10 and 12
    the two records; the cells 0 to 7 are untouched. *)
Example st_normalize_results_store_ex :
  st_normalize_results (VRef 7) store_ex =
    (store_ex ++
       [OList [VRef 10; VRef 12];
        OList [VStr "Artist X"];
        ODict [("id", VStr "a1"); ("title", VStr "Unknown title");
               ("channel", VStr "Artist X"); ("thumbnailUrl", VStr "high.jpg")];
        OList [VStr "Artist X"];
        ODict [("id", VStr "a1"); ("title", VStr "Unknown title");
               ("channel", VStr "Artist X"); ("thumbnailUrl", VStr "high.jpg")]],
     Ok (VRef 8)).
Proof. reflexivity. Qed.

(** C6.  [normalize_results] is deterministic and pure.  Run on a list
    object that denotes the records [pitems], it leaves every cell that the
    store had as it was: the input list and the input records are not
    written to.  Run a second time on the same list, in the store the
    first run has left, it leaves the store of the first run as it was and
    its outcome is that of the first run: the same exception, or a list
    that denotes the same records. *)
Theorem normalize_results_pure (σ : store) (pitems : list pyval) (items : val) :
  represents σ (PList pitems) items ->
  let first := st_normalize_results items σ in
  let second := st_normalize_results items (fst first) in
  σ `prefix_of` fst first
  /\ fst first `prefix_of` fst second
  /\ match snd first, snd second with
     | Ok out1, Ok out2 =>
         exists pout,
           normalize_results pitems = Ok pout
           /\ represents (fst second) (PList pout) out1
           /\ represents (fst second) (PList pout) out2
     | Raise e1, Raise e2 => e1 = e2 /\ normalize_results pitems = Raise e1
     | _, _ => False
     end.
Proof.
  intros Hitems first second.
  destruct (st_normalize_results_sim σ pitems items Hitems) as [H1 Hout1].
  assert (Hitems' : represents (fst first) (PList pitems) items).
  { apply repr_represents with (r := length σ). by eapply repr_prefix. }
  destruct (st_normalize_results_sim _ pitems items Hitems') as [H2 Hout2].
  fold first in H1, Hout1, H2, Hout2. fold second in H2, Hout2.
  split; [done|]. split; [done|].
  destruct Hout1 as [pout out1 Hrep1|e]; inversion Hout2 as [? out2 Hrep2|]; subst.
  - exists pout. repeat split; [|done].
    apply repr_represents with (r := length (fst first)). by eapply repr_prefix.
  - done.
Qed.

Lemma normalize_results_pure_witness :
  represents store_ex (PList pitems_ex) (VRef 7)
  /\ let first := st_normalize_results (VRef 7) store_ex in
     let second := st_normalize_results (VRef 7) (fst first) in
     store_ex `prefix_of` fst first
     /\ fst first `prefix_of` fst second
     /\ match snd first, snd second with
        | Ok out1, Ok out2 =>
            exists pout,
              normalize_results pitems_ex = Ok pout
              /\ represents (fst second) (PList pout) out1
              /\ represents (fst second) (PList pout) out2
        | Raise e1, Raise e2 =>
            e1 = e2 /\ normalize_results pitems_ex = Raise e1
        | _, _ => False
        end.
Proof.
  assert (H : represents store_ex (PList pitems_ex) (VRef 7)).
  { unfold represents, pitems_ex, store_ex.
    repeat first [done | split | econstructor]. }
  split; [exact H | exact (normalize_results_pure store_ex pitems_ex (VRef 7) H)].
Defined.

(** * Further properties of the script *)

(** ** [normalize_results] on any input *)

(** Destructs the computation at the head of a chain of binds. *)
Ltac step_bind :=
  match goal with
  | |- context [@mbind result _ _ _ _ ?m] =>
      lazymatch m with
      | Ok _ => fail
      | Raise _ => fail
      | _ => destruct m; cbn [mbind result_bind]
      end
  end.

(** The turn of the loop does not read [results]: it appends to it what
    it appends to the empty list. *)
Lemma normalize_item_app (results : list pyval) (item : pyval) :
  normalize_item results item =
    r ← normalize_item [] item; Ok (results ++ r).
Proof.
  unfold normalize_item.
  step_bind; [|done].
  destruct (negb (truthy _)); cbn [mbind result_bind];
    [by rewrite app_nil_r|].
  repeat (step_bind; [|done]). done.
Qed.

Lemma normalize_loop_app (items results : list pyval) :
  normalize_loop items results =
    r ← normalize_results items; Ok (results ++ r).
Proof.
  unfold normalize_results. revert results.
  induction items as [|item items IH]; intros results; simpl.
  - by rewrite app_nil_r.
  - rewrite (normalize_item_app results item).
    destruct (normalize_item [] item) as [r1|e]; cbn [mbind result_bind]; [|done].
    rewrite (IH (results ++ r1)), (IH r1).
    destruct (normalize_loop items []); cbn [mbind result_bind]; [|done].
    by rewrite app_assoc.
Qed.

Lemma normalize_loop_concat (xs ys results : list pyval) :
  normalize_loop (xs ++ ys) results =
    r ← normalize_loop xs results; normalize_loop ys r.
Proof.
  revert results. induction xs as [|x xs IH]; intros results; simpl; [done|].
  destruct (normalize_item results x); cbn [mbind result_bind]; [apply IH|done].
Qed.

(** X1.  [normalize_results] goes through its input from left to right and
    item by item: on [xs ++ ys] it returns the records of [xs] followed by
    the records of [ys], and raises the first exception that [xs], and
    then [ys], raises.  No typing of the items is assumed. *)
Theorem normalize_results_concat (xs ys : list pyval) :
  normalize_results (xs ++ ys) =
    r1 ← normalize_results xs; r2 ← normalize_results ys; Ok (r1 ++ r2).
Proof.
  unfold normalize_results at 1. rewrite normalize_loop_concat.
  fold (normalize_results xs).
  destruct (normalize_results xs) as [r1|e]; cbn [mbind result_bind]; [|done].
  apply normalize_loop_app.
Qed.

Lemma normalize_item_unidentified (results : list pyval) (item : pyval) :
  unidentified item = true -> normalize_item results item = Ok results.
Proof.
  destruct item as [| | | | |d]; try done. unfold unidentified, normalize_item.
  cbn [py_get field]. rewrite py_or_same. cbn [mbind result_bind].
  by intros ->.
Qed.

(** X2.  A mapping whose [videoId] is missing or falsy is skipped before
    any other key is read: whatever its other fields hold, leaving such
    items out of the input changes neither the records returned nor the
    exception raised. *)
Theorem normalize_results_skips_unidentified (items : list pyval) :
  normalize_results (List.filter (fun i => negb (unidentified i)) items) =
    normalize_results items.
Proof.
  unfold normalize_results. generalize (@nil pyval) as results.
  induction items as [|item items IH]; intros results; simpl; [done|].
  destruct (unidentified item) eqn:E; simpl.
  - rewrite (normalize_item_unidentified _ _ E). apply IH.
  - destruct (normalize_item results item); cbn [mbind result_bind];
      [apply IH|done].
Qed.

Lemma py_or_truthy (a : result pyval) (b x : pyval) :
  truthy b = true -> py_or a (Ok b) = Ok x -> truthy x = true.
Proof.
  intros Hb. unfold py_or. destruct a as [y|e]; [|done]. cbn [mbind result_bind].
  destruct (truthy y) eqn:E; intros [= <-]; done.
Qed.

(** What a turn of the loop that does not raise has done. *)
Lemma normalize_item_inv (item : pyval) (r : list pyval) :
  normalize_item [] item = Ok r ->
  (unidentified item = true /\ r = [])
  \/ (truthy (field item "videoId") = true
      /\ exists title channel thumb,
           r = [PDict [("id", field item "videoId"); ("title", title);
                       ("channel", channel); ("thumbnailUrl", thumb)]]
           /\ truthy title = true /\ truthy channel = true).
Proof.
  destruct item as [| | | | |d]; try done.
  unfold normalize_item, unidentified. cbn [py_get field].
  rewrite py_or_same. cbn [mbind result_bind].
  destruct (truthy (default PNone (assoc d "videoId"))) eqn:Evid; cbn [negb];
    [|intros [= <-]; by left].
  intros H. right. split; [done|].
  apply bind_Ok_inv in H as (title & Htitle & H).
  apply bind_Ok_inv in H as (artists & _ & H).
  apply bind_Ok_inv in H as (elems & _ & H).
  apply bind_Ok_inv in H as (names & _ & H).
  apply bind_Ok_inv in H as (channel & _ & H).
  apply bind_Ok_inv in H as (channel0 & Hchannel & H).
  apply bind_Ok_inv in H as (thumbnails & _ & H).
  apply bind_Ok_inv in H as (thumb & _ & H).
  injection H as <-. exists title, channel0, thumb. split; [done|]. split.
  - eapply py_or_truthy; [|exact Htitle]. done.
  - destruct (truthy channel) eqn:Ech; cbn [negb] in Hchannel.
    + by injection Hchannel as <-.
    + eapply py_or_truthy; [|exact Hchannel]. done.
Qed.

Lemma normalize_results_cons (item : pyval) (items : list pyval) :
  normalize_results (item :: items) =
    r1 ← normalize_item [] item; r2 ← normalize_results items; Ok (r1 ++ r2).
Proof.
  unfold normalize_results at 1. simpl.
  destruct (normalize_item [] item) as [r1|e]; cbn [mbind result_bind]; [|done].
  apply normalize_loop_app.
Qed.

Lemma normalize_results_cons_inv (item : pyval) (items out : list pyval) :
  normalize_results (item :: items) = Ok out ->
  exists r out',
    normalize_item [] item = Ok r /\ normalize_results items = Ok out'
    /\ out = r ++ out'.
Proof.
  rewrite normalize_results_cons. intros H.
  apply bind_Ok_inv in H as (r & Hr & H).
  apply bind_Ok_inv in H as (out' & Hout' & [= <-]). eauto.
Qed.

Lemma emitted_record_unidentified (r : pyval) :
  emitted_record r -> unidentified r = true.
Proof. intros (id & title & channel & thumb & -> & _). done. Qed.

(** A call that returns has met mappings only, and has appended one record
    for each of them whose [videoId] is truthy. *)
Lemma normalize_results_inv (items out : list pyval) :
  normalize_results items = Ok out ->
  Forall emitted_record out
  /\ map (fun r => field r "id") out =
     List.filter truthy (map (fun i => field i "videoId") items).
Proof.
  revert out. induction items as [|item items IH]; intros out.
  { intros [= <-]. done. }
  intros (r & out' & Hr & Hout' & ->)%normalize_results_cons_inv.
  destruct (IH _ Hout') as [IH1 IH2]. simpl.
  apply normalize_item_inv in Hr
    as [[Hun ->]|(Hvid & title & channel & thumb & -> & Ht & Hc)].
  - destruct item; try done. unfold unidentified in Hun.
    apply negb_true_iff in Hun. rewrite Hun. done.
  - rewrite Hvid. simpl. split; [|by f_equal].
    constructor; [|done]. by exists (field item "videoId"), title, channel, thumb.
Qed.

(** X3.  Whatever the types of the raw fields, every record of a call
    that returns has the four keys [id], [title], [channel],
    [thumbnailUrl] in this order, and its [id], [title] and [channel] are
    truthy: none is [None], empty, zero or false. *)
Theorem normalize_results_emits_records (items out : list pyval) :
  normalize_results items = Ok out -> Forall emitted_record out.
Proof. by intros [? _]%normalize_results_inv. Qed.

(** X4.  Whatever the types of the raw fields, the [id]s of the records of
    a call that returns are the truthy [videoId]s of the input, each as it
    was read (a string, a number, ...), in the order of the input. *)
Theorem normalize_results_ids (items out : list pyval) :
  normalize_results items = Ok out ->
  map (fun r => field r "id") out =
    List.filter truthy (map (fun i => field i "videoId") items).
Proof. by intros [_ ?]%normalize_results_inv. Qed.

Lemma normalize_results_unidentified (items : list pyval) :
  Forall (fun i => unidentified i = true) items ->
  normalize_results items = Ok [].
Proof.
  unfold normalize_results.
  induction 1 as [|item items Hitem _ IH]; simpl; [done|].
  by rewrite (normalize_item_unidentified _ _ Hitem).
Qed.

(** X5.  The output is not an input: its records have no [videoId], so a
    call on the records that a call has returned returns the empty list. *)
Theorem normalize_results_twice_empty (items out : list pyval) :
  normalize_results items = Ok out -> normalize_results out = Ok [].
Proof.
  intros [H _]%normalize_results_inv. apply normalize_results_unidentified.
  eapply Forall_impl; [exact H|]. apply emitted_record_unidentified.
Qed.

Lemma normalize_results_emits_records_witness :
  normalize_results ex_untyped =
    Ok [PDict [("id", PInt 42); ("title", PInt 7);
               ("channel", PBool true); ("thumbnailUrl", PInt 3)]]
  /\ Forall emitted_record
       [PDict [("id", PInt 42); ("title", PInt 7);
               ("channel", PBool true); ("thumbnailUrl", PInt 3)]].
Proof.
  split; [reflexivity|].
  exact (normalize_results_emits_records ex_untyped _ eq_refl).
Defined.

Lemma normalize_results_ids_witness :
  normalize_results ex_untyped =
    Ok [PDict [("id", PInt 42); ("title", PInt 7);
               ("channel", PBool true); ("thumbnailUrl", PInt 3)]]
  /\ map (fun r => field r "id")
       [PDict [("id", PInt 42); ("title", PInt 7);
               ("channel", PBool true); ("thumbnailUrl", PInt 3)]] =
     List.filter truthy (map (fun i => field i "videoId") ex_untyped).
Proof.
  split; [reflexivity|].
  exact (normalize_results_ids ex_untyped _ eq_refl).
Defined.

Lemma normalize_results_twice_empty_witness :
  normalize_results ex1 = Ok (map record_spec (List.filter has_video_id ex1))
  /\ normalize_results (map record_spec (List.filter has_video_id ex1)) = Ok [].
Proof.
  split; [reflexivity|].
  exact (normalize_results_twice_empty ex1 _ eq_refl).
Defined.

Lemma normalize_item_same_read (results : list pyval) (item item' : pyval) :
  same_read item item' ->
  normalize_item results item = normalize_item results item'.
Proof.
  destruct item as [| | | | |d], item' as [| | | | |d']; try done.
  unfold same_read, read_keys. rewrite !Forall_cons. cbn [field].
  intros (Hvid & Httl & Harts & Hart & Haut & Hths & _).
  unfold normalize_item. cbn [py_get].
  by rewrite Hvid, Httl, Harts, Hart, Haut, Hths.
Qed.

(** X6.  [normalize_results] reads six keys of an item and nothing else:
    two inputs whose items agree on [videoId], [title], [artists],
    [artist], [author] and [thumbnails] give the same records or the same
    exception, whatever other keys the items hold and in whatever order
    the keys come. *)
Theorem normalize_results_same_read (items items' : list pyval) :
  Forall2 same_read items items' ->
  normalize_results items = normalize_results items'.
Proof.
  unfold normalize_results. generalize (@nil pyval) as results.
  intros results H. revert results.
  induction H as [|item item' items items' Hitem _ IH]; intros results;
    simpl; [done|].
  rewrite (normalize_item_same_read _ _ _ Hitem).
  destruct (normalize_item results item'); cbn [mbind result_bind];
    [apply IH|done].
Qed.

Lemma normalize_results_same_read_witness :
  Forall2 same_read ex_untyped
    [PDict [("thumbnails", PList [PInt 1; PDict [("url", PInt 3)]]);
            ("artist", PBool true); ("title", PInt 7); ("videoId", PInt 42)];
     PDict [("artists", PInt 5); ("videoId", PInt 0); ("views", PInt 9)]]
  /\ normalize_results ex_untyped =
     normalize_results
       [PDict [("thumbnails", PList [PInt 1; PDict [("url", PInt 3)]]);
               ("artist", PBool true); ("title", PInt 7); ("videoId", PInt 42)];
        PDict [("artists", PInt 5); ("videoId", PInt 0); ("views", PInt 9)]].
Proof.
  assert (H : Forall2 same_read ex_untyped
    [PDict [("thumbnails", PList [PInt 1; PDict [("url", PInt 3)]]);
            ("artist", PBool true); ("title", PInt 7); ("videoId", PInt 42)];
     PDict [("artists", PInt 5); ("videoId", PInt 0); ("views", PInt 9)]]).
  { repeat constructor. }
  split; [exact H | exact (normalize_results_same_read _ _ H)].
Defined.

Lemma thumbnail_of_last (l : list pyval) (t : pyval) :
  (thumbnails ← py_or (Ok (PList (l ++ [t]))) (Ok (PList []));
   if truthy thumbnails then x ← py_last thumbnails; py_get x "url"
   else Ok PNone)
  = py_get t "url".
Proof.
  assert (Ht : truthy (PList (l ++ [t])) = true).
  { simpl. rewrite length_app. simpl. by rewrite Nat.add_1_r. }
  unfold py_or. cbn [mbind result_bind]. rewrite Ht.
  cbn [mbind result_bind]. rewrite Ht. unfold py_last. rewrite last_snoc.
  done.
Qed.

Lemma bind_assoc {A B C} (m : result A) (f : A -> result B) (g : B -> result C) :
  (m ≫= f) ≫= g = m ≫= (fun a => f a ≫= g).
Proof. by destruct m. Qed.

Lemma normalize_item_same_last_thumbnail (results : list pyval) (item item' : pyval) :
  same_last_thumbnail item item' ->
  normalize_item results item = normalize_item results item'.
Proof.
  destruct item as [| | | | |d], item' as [| | | | |d'];
    intros (Hm & Hm' & H & ths & ths' & t & Hths & Hths'); try done.
  revert H Hths Hths'. rewrite !Forall_cons. cbn [field].
  intros (Hvid & Httl & Harts & Hart & Haut & _) Hths Hths'.
  unfold normalize_item. cbn [py_get].
  rewrite Hvid, Httl, Harts, Hart, Haut, Hths, Hths'.
  step_bind; [|done]. destruct (negb (truthy _)); [done|].
  do 6 (step_bind; [|done]).
  rewrite <- !bind_assoc. by rewrite !thumbnail_of_last.
Qed.

(** X7.  Of a non-empty [thumbnails] list only the last element is read:
    the elements before it can be changed, added or removed, mappings or
    not, and the call returns the same records or raises the same
    exception. *)
Theorem normalize_results_last_thumbnail
    (pre post : list pyval) (item item' : pyval) :
  same_last_thumbnail item item' ->
  normalize_results (pre ++ item :: post) =
    normalize_results (pre ++ item' :: post).
Proof.
  intros H. unfold normalize_results. rewrite !normalize_loop_concat.
  destruct (normalize_loop pre []) as [r|e]; cbn [mbind result_bind]; [|done].
  simpl. by rewrite (normalize_item_same_last_thumbnail _ _ _ H).
Qed.

Lemma normalize_results_last_thumbnail_witness :
  same_last_thumbnail
    (PDict [("videoId", PInt 42);
            ("thumbnails", PList [PInt 1; PDict [("url", PInt 3)]])])
    (PDict [("videoId", PInt 42);
            ("thumbnails", PList [PDict [("url", PInt 3)]])])
  /\ normalize_results
       (ex1 ++ PDict [("videoId", PInt 42);
                      ("thumbnails", PList [PInt 1; PDict [("url", PInt 3)]])]
            :: ex_untyped) =
     normalize_results
       (ex1 ++ PDict [("videoId", PInt 42);
                      ("thumbnails", PList [PDict [("url", PInt 3)]])]
            :: ex_untyped).
Proof.
  assert (H : same_last_thumbnail
    (PDict [("videoId", PInt 42);
            ("thumbnails", PList [PInt 1; PDict [("url", PInt 3)]])])
    (PDict [("videoId", PInt 42);
            ("thumbnails", PList [PDict [("url", PInt 3)]])])).
  { split; [reflexivity|]. split; [reflexivity|]. split; [repeat constructor|].
    exists [PInt 1], [], (PDict [("url", PInt 3)]). split; reflexivity. }
  split; [exact H | exact (normalize_results_last_thumbnail ex1 ex_untyped _ _ H)].
Defined.

(** X8.  An item that is no mapping ([None], a string, a list, ...) makes
    the whole call raise [AttributeError], wherever it stands after items
    that went through: the records of the items before it are lost, and
    the items after it are not looked at. *)
Theorem normalize_results_not_a_mapping
    (pre post out_pre : list pyval) (item : pyval) :
  normalize_results pre = Ok out_pre ->
  is_mapping item = false ->
  normalize_results (pre ++ item :: post) = Raise AttributeError.
Proof.
  unfold normalize_results. intros Hpre Hitem.
  rewrite normalize_loop_concat, Hpre. cbn [mbind result_bind]. simpl.
  by destruct item.
Qed.

Lemma normalize_results_not_a_mapping_witness :
  normalize_results ex1 = Ok (map record_spec (List.filter has_video_id ex1))
  /\ is_mapping PNone = false
  /\ normalize_results (ex1 ++ PNone :: ex_untyped) = Raise AttributeError.
Proof.
  split; [reflexivity|]. split; [reflexivity|].
  exact (normalize_results_not_a_mapping ex1 ex_untyped _ PNone eq_refl eq_refl).
Defined.

(** ** [main] on any command line and with any collaborator *)

(** X9.  A run of [main] prints one line or none.  It ends normally, with
    status 0, after printing the results object and nothing else; it
    exits with status 1 after printing the usage error and nothing else,
    without a call to the collaborator; and when an exception of the
    collaborator, of the normalization or of [json.dumps] goes uncaught,
    with status 1, it has printed nothing: no partial results reach the
    output. *)
Theorem main_prints_one_line_or_raises
    (py : interpreter) (lib : ytmusicapi) (argv : list string) :
  match snd (main py lib argv) with
  | Value _ =>
      exit_status (main py lib argv) = 0
      /\ exists results,
           prints (fst (main py lib argv)) =
             [json_text (PDict [("results", PList results)])]
  | SystemExit status =>
      status = 1
      /\ prints (fst (main py lib argv)) = [usage_line]
      /\ calls (fst (main py lib argv)) = []
  | Uncaught _ =>
      exit_status (main py lib argv) = 1
      /\ prints (fst (main py lib argv)) = []
  end.
Proof.
  unfold main.
  destruct argv as [|prog [|q [|headers_path rest]]]; try done.
  simpl. unfold call_YTMusic, call_search.
  destruct (YTMusic lib headers_path) as [c|e]; simpl; [|done].
  destruct (search lib c q "songs" 8) as [items|e]; simpl; [|done].
  destruct (normalize_results items) as [results|e]; simpl; [|done].
  destruct (json_dumps py (PDict [("results", PList results)]))
    as [line|e] eqn:Hj; simpl; [|done].
  apply json_dumps_text in Hj as ->.
  split; [done|]. by exists results.
Qed.

(** X10.  The calls of a run to the collaborator, in order: none when
    there are fewer than two arguments; else the constructor on the second
    argument, once, followed, if it has returned a client, by one search
    for the first argument among the songs with the limit 8.  Arguments
    after the second are not used. *)
Theorem main_calls (py : interpreter) (lib : ytmusicapi) (argv : list string) :
  match argv with
  | _ :: query :: headers_path :: _ =>
      calls (fst (main py lib argv)) =
        match YTMusic lib headers_path with
        | Ok _ => [EYTMusic headers_path; ESearch query "songs" 8]
        | Raise _ => [EYTMusic headers_path]
        end
  | _ => calls (fst (main py lib argv)) = []
  end.
Proof.
  unfold main.
  destruct argv as [|prog [|q [|headers_path rest]]]; try done.
  simpl. unfold call_YTMusic, call_search.
  destruct (YTMusic lib headers_path) as [c|e]; simpl; [|done].
  destruct (search lib c q "songs" 8) as [items|e]; simpl; [|done].
  destruct (normalize_results items) as [results|e]; simpl; [|done].
  by destruct (json_dumps py (PDict [("results", PList results)])).
Qed.

(** ** The store embedding on any store *)

Lemma keeps_ret {A} (r : loc) (a : A) : keeps r (mret a).
Proof. by intros σ l o _ H. Qed.

Lemma keeps_raise {A} (r : loc) (e : exn) : keeps r (@st_raise A e).
Proof. by intros σ l o _ H. Qed.

Lemma keeps_bind {A B} (r : loc) (m : st A) (g : A -> st B) :
  keeps r m -> (forall a, keeps r (g a)) -> keeps r (m ≫= g).
Proof.
  intros Hm Hg σ. specialize (Hm σ).
  change ((m ≫= g) σ) with
    (match m σ with
     | (σ', Ok a) => g a σ'
     | (σ', Raise e) => (σ', Raise e)
     end).
  destruct (m σ) as [σ' [a|e]]; simpl in *; [|done].
  eapply grows_trans; [exact Hm|apply Hg].
Qed.

Lemma keeps_deref (r l : loc) : keeps r (st_deref l).
Proof. intros σ k o _ H. unfold st_deref. by destruct (σ !! l). Qed.

Lemma keeps_alloc (r : loc) (o : obj) : keeps r (st_alloc o).
Proof. intros σ k c _ H. by apply lookup_app_l_Some. Qed.

Lemma keeps_append (r : loc) (v : val) : keeps r (st_append (VRef r) v).
Proof.
  intros σ k o Hk H. unfold st_append.
  destruct (σ !! r) as [[vs|d]|]; simpl; [|done..].
  by rewrite list_lookup_insert_ne.
Qed.

Create HintDb keeps.
#[local] Hint Resolve keeps_ret keeps_raise keeps_deref keeps_alloc
  keeps_append : keeps.

(** Goes through a computation bind by bind and branch by branch. *)
Ltac keeps_tac :=
  repeat first
    [ apply keeps_bind; [|intros ?]
    | progress auto with keeps
    | match goal with
      | |- keeps _ (match ?x with _ => _ end) => destruct x
      end ].

Lemma keeps_truthy (r : loc) (v : val) : keeps r (st_truthy v).
Proof. destruct v; unfold st_truthy; keeps_tac. Qed.

Lemma keeps_get (r : loc) (v : val) (k : string) : keeps r (st_get v k).
Proof. destruct v; unfold st_get; keeps_tac. Qed.

Lemma keeps_iter (r : loc) (v : val) : keeps r (st_iter v).
Proof. destruct v; unfold st_iter; keeps_tac. Qed.

Lemma keeps_last (r : loc) (v : val) : keeps r (st_last v).
Proof. destruct v; unfold st_last; keeps_tac. Qed.

#[local] Hint Resolve keeps_truthy keeps_get keeps_iter keeps_last : keeps.

Lemma keeps_or (r : loc) (a b : st val) :
  keeps r a -> keeps r b -> keeps r (st_or a b).
Proof. intros Ha Hb. unfold st_or. keeps_tac. Qed.

Lemma keeps_join (r : loc) (sep : string) (v : val) : keeps r (st_join sep v).
Proof. unfold st_join. keeps_tac. Qed.

Lemma keeps_artist_names (r : loc) (artists : list val) :
  keeps r (st_artist_names artists).
Proof. induction artists as [|artist rest IH]; simpl; keeps_tac. Qed.

#[local] Hint Resolve keeps_or keeps_join keeps_artist_names : keeps.

Lemma keeps_normalize_item (r : loc) (item : val) :
  keeps r (st_normalize_item (VRef r) item).
Proof. unfold st_normalize_item. keeps_tac. Qed.

Lemma keeps_normalize_loop (r : loc) (items : list val) :
  keeps r (st_normalize_loop items (VRef r)).
Proof.
  induction items as [|item items IH]; simpl; keeps_tac.
Qed.

(** X11.  On any store and any argument, well-formed or not,
    [normalize_results] writes to no object that existed when it was
    called: every cell of the store is as it was, so neither the input
    list nor an input record is changed; and the list it returns is a new
    object, at a location that named nothing before the call. *)
Theorem st_normalize_results_frame (σ : store) (items : val) :
  σ `prefix_of` fst (st_normalize_results items σ)
  /\ forall v, snd (st_normalize_results items σ) = Ok v ->
               v = VRef (length σ) /\ σ !! length σ = None.
Proof.
  set (r := length σ).
  set (rest := fun results : val =>
         elems ← st_iter items; _ ← st_normalize_loop elems results;
         mret results).
  assert (Hk : keeps r (rest (VRef r))).
  { unfold rest. keeps_tac. apply keeps_normalize_loop. }
  assert (E : st_normalize_results items σ = rest (VRef r) (σ ++ [OList []]))
    by done.
  rewrite E. split.
  - apply lookup_prefix. intros l o Hl. apply Hk.
    + apply lookup_lt_Some in Hl. unfold r. lia.
    + by apply lookup_app_l_Some.
  - intros v Hv. split; [|by apply lookup_ge_None].
    revert Hv. unfold rest.
    change ((st_iter items ≫= _) (σ ++ [OList []])) with
      (match st_iter items (σ ++ [OList []]) with
       | (σ', Ok elems) =>
           match st_normalize_loop elems (VRef r) σ' with
           | (σ'', Ok _) => (σ'', Ok (VRef r))
           | (σ'', Raise e) => (σ'', Raise e)
           end
       | (σ', Raise e) => (σ', Raise e)
       end).
    destruct (st_iter items (σ ++ [OList []])) as [σ' [elems|e]]; [|done].
    destruct (st_normalize_loop elems (VRef r) σ') as [σ'' [[]|e]]; [|done].
    by intros [= <-].
Qed.

(** X12.  The result depends on the values in the input, not on how the
    objects are laid out or shared in memory: run on a list object that
    denotes [pitems], the function raises what the value embedding raises
    on [pitems], or returns a list that denotes the records it returns. *)
Theorem st_normalize_results_refines
    (σ : store) (pitems : list pyval) (items : val) :
  represents σ (PList pitems) items ->
  match normalize_results pitems, snd (st_normalize_results items σ) with
  | Ok pout, Ok out =>
      represents (fst (st_normalize_results items σ)) (PList pout) out
  | Raise e, Raise e' => e = e'
  | _, _ => False
  end.
Proof.
  intros H. destruct (st_normalize_results_sim σ pitems items H) as [_ Hout].
  by destruct Hout.
Qed.

Lemma st_normalize_results_refines_witness :
  represents store_ex (PList pitems_ex) (VRef 7)
  /\ match normalize_results pitems_ex,
           snd (st_normalize_results (VRef 7) store_ex) with
     | Ok pout, Ok out =>
         represents (fst (st_normalize_results (VRef 7) store_ex))
           (PList pout) out
     | Raise e, Raise e' => e = e'
     | _, _ => False
     end.
Proof.
  assert (H : represents store_ex (PList pitems_ex) (VRef 7)).
  { unfold represents, pitems_ex, store_ex.
    repeat first [done | split | econstructor]. }
  split; [exact H | exact (st_normalize_results_refines store_ex pitems_ex _ H)].
Defined.

(** ** The inputs on which [normalize_results] returns *)

Lemma py_or_Ok_Ok (a b : pyval) :
  py_or (Ok a) (Ok b) = Ok (if truthy a then a else b).
Proof. unfold py_or. cbn [mbind result_bind]. by destruct (truthy a). Qed.

Lemma names_ok_spec (l : list pyval) :
  forallb name_ok l =
    match artist_names l with
    | Ok names => is_ok (py_join ", " names)
    | Raise _ => false
    end.
Proof.
  induction l as [|a l IH]; [done|]. cbn [forallb artist_names].
  destruct a as [| | | | |d]; try done. cbn [py_get mbind result_bind].
  rewrite IH. unfold name_ok. cbn [field].
  destruct (default PNone (assoc d "name")) as [|b|n|s|l'|d'] eqn:E;
    cbn [truthy negb andb]; try done.
  - destruct b; cbn [negb andb]; [|done].
    by destruct (artist_names l).
  - destruct (negb (n =? 0)); cbn [negb andb]; [|done].
    by destruct (artist_names l).
  - destruct (negb (String.eqb s "")); [|done].
    destruct (artist_names l) as [names|e]; cbn [mbind result_bind]; [|done].
    unfold py_join. cbn [strs]. by destruct (strs names).
  - destruct (negb (Nat.eqb (length l') 0)); cbn [negb andb]; [|done].
    by destruct (artist_names l).
  - destruct (negb (Nat.eqb (length d') 0)); cbn [negb andb]; [|done].
    by destruct (artist_names l).
Qed.

Lemma artists_ok_spec (v : pyval) :
  artists_ok v =
    match py_iter (if truthy v then v else PList []) with
    | Ok elems =>
        match artist_names elems with
        | Ok names => is_ok (py_join ", " names)
        | Raise _ => false
        end
    | Raise _ => false
    end.
Proof.
  unfold artists_ok.
  destruct v as [|b|n|s|l|d]; cbn [truthy negb orb]; try done.
  - by destruct b.
  - by destruct (negb (n =? 0)).
  - by destruct s.
  - destruct l as [|a l]; [done|]. cbn [length Nat.eqb negb orb py_iter].
    apply names_ok_spec.
  - by destruct d.
Qed.

Lemma chars_last (s : string) (v : pyval) :
  last (chars s) = Some v -> is_mapping v = false.
Proof.
  intros H%last_Some_elem_of. induction s as [|c s IH]; simpl in H.
  - by apply elem_of_nil in H.
  - apply elem_of_cons in H as [->|H]; [done|by apply IH].
Qed.

Lemma thumbnails_ok_spec (v : pyval) :
  thumbnails_ok v =
    is_ok (if truthy (if truthy v then v else PList [])
           then t ← py_last (if truthy v then v else PList []); py_get t "url"
           else Ok PNone).
Proof.
  unfold thumbnails_ok.
  destruct (truthy v) eqn:E; cbn [negb orb]; [rewrite E|done].
  destruct v as [|b|n|s|l|d]; try done; cbn [py_last].
  - destruct (last (chars s)) as [t|] eqn:El; [|done].
    apply chars_last in El. by destruct t.
  - destruct (last l) as [t|]; [|done]. by destruct t.
Qed.

Lemma is_ok_bind_Ok {A B} (m : result A) (f : A -> B) :
  is_ok (m ≫= fun a => Ok (f a)) = is_ok m.
Proof. by destruct m. Qed.

Lemma normalize_item_accepted (results : list pyval) (item : pyval) :
  is_ok (normalize_item results item) = accepted item.
Proof.
  destruct item as [| | | | |d]; try done.
  unfold accepted, unidentified, normalize_item. cbn [is_mapping andb py_get field].
  rewrite artists_ok_spec, thumbnails_ok_spec, py_or_same, !py_or_Ok_Ok.
  cbn [mbind result_bind].
  destruct (truthy (default PNone (assoc d "videoId"))); cbn [negb orb]; [|done].
  destruct (py_iter _) as [elems|e]; cbn [mbind result_bind]; [|done].
  destruct (artist_names elems) as [names|e]; cbn [mbind result_bind]; [|done].
  destruct (py_join ", " names) as [channel|e]; cbn [mbind result_bind is_ok andb];
    [|done].
  destruct (negb (truthy channel)); cbn [mbind result_bind];
    apply is_ok_bind_Ok.
Qed.

(** X13.  The inputs [normalize_results] gets through without raising are
    those whose items are all mappings and, when they have an identifier,
    have an [artists] that is falsy or a list of mappings with [name]
    falsy or a string, and a [thumbnails] that is falsy or a list whose
    last element is a mapping.  The types of [videoId], [title],
    [artist], [author] and [url] never make it raise. *)
Theorem normalize_results_accepted (items : list pyval) :
  is_ok (normalize_results items) = forallb accepted items.
Proof.
  unfold normalize_results. generalize (@nil pyval) as results.
  induction items as [|item items IH]; intros results; simpl; [done|].
  rewrite <- normalize_item_accepted with (results := results).
  destruct (normalize_item results item); cbn [mbind result_bind is_ok andb];
    [apply IH|done].
Qed.

(** ** [main] and the exceptions of [json.dumps] *)

(** An identifier that the interpreter refuses to write out: the search
    and the normalization return, [json.dumps] raises, nothing is printed
    and the status is 1. *)
Example main_huge_identifier :
  main py_ex lib_huge_id ["ytmusic_search.py"; "lofi"; "headers.json"] =
    ([EYTMusic "headers.json"; ESearch "lofi" "songs" 8], Uncaught ValueError)
  /\ exit_status
       (main py_ex lib_huge_id ["ytmusic_search.py"; "lofi"; "headers.json"]) = 1.
Proof. split; vm_compute; reflexivity. Qed.

(** An identifier nested one level deeper than the encoder has room for. *)
Example main_nested_identifier :
  main py_shallow lib_list_id ["ytmusic_search.py"; "lofi"; "headers.json"] =
    ([EYTMusic "headers.json"; ESearch "lofi" "songs" 8],
     Uncaught RecursionError)
  /\ snd (main py_ex lib_list_id ["ytmusic_search.py"; "lofi"; "headers.json"])
     = Value tt.
Proof. split; vm_compute; reflexivity. Qed.

Lemma mapM_Ok {A B} (f : A -> result B) (g : A -> B) (l : list A) :
  Forall (fun x => f x = Ok (g x)) l -> mapM f l = Ok (map g l).
Proof.
  induction 1 as [|x l Hx _ IH]; simpl; [done|]. by rewrite Hx, IH.
Qed.

Lemma record_spec_shape (item : pyval) :
  raw_record item = true -> has_video_id item = true ->
  emitted_shape (record_spec item).
Proof.
  intros Hraw (s & Hs & Hne)%has_video_id_text.
  exists s, (title_spec item), (channel_spec item), (thumbnail_spec item).
  unfold record_spec. rewrite Hs.
  repeat split;
    auto using title_spec_not_empty, channel_spec_not_empty, thumbnail_spec_shape.
Qed.

(** A record of strings takes one level of nesting and has no integer. *)
Lemma json_encode_emitted_shape (py : interpreter) (r : pyval) (room : nat) :
  emitted_shape r -> json_encode py r (S room) = Ok (json_text r).
Proof.
  intros (id & title & channel & thumb & -> & _ & _ & _ & [->|[u ->]]); done.
Qed.

(** X14.  When the search returns raw records as the specification
    describes them (string-typed fields), [json.dumps] has nothing to
    refuse: provided the encoder has room for the three levels of the
    results object, the run prints the results of the normalization and
    ends normally, with status 0. *)
Theorem main_success_raw_records (py : interpreter) (lib : ytmusicapi)
    (prog query headers_path : string) (rest : list string)
    (ytmusic : client lib) (items : list pyval) :
  (2 <= json_nesting_limit py)%nat ->
  YTMusic lib headers_path = Ok ytmusic ->
  search lib ytmusic query "songs" 8 = Ok items ->
  Forall raw_record items ->
  exists results,
    normalize_results items = Ok results
    /\ main py lib (prog :: query :: headers_path :: rest) =
         ([EYTMusic headers_path;
           ESearch query "songs" 8;
           EPrint (json_text (PDict [("results", PList results)]))],
          Value tt)
    /\ exit_status (main py lib (prog :: query :: headers_path :: rest)) = 0.
Proof.
  intros Hroom Hc Hs Hraw.
  exists (map record_spec (List.filter has_video_id items)).
  pose proof (normalize_results_raw items Hraw) as Hn.
  assert (Hj : json_dumps py
                 (PDict [("results",
                          PList (map record_spec (List.filter has_video_id items)))])
               = Ok (json_text
                       (PDict [("results",
                                PList (map record_spec
                                         (List.filter has_video_id items)))]))).
  { unfold json_dumps.
    destruct (json_nesting_limit py) as [|[|room]]; [lia..|].
    cbn [json_encode mapM fst snd mbind result_bind].
    rewrite (mapM_Ok _ json_text); [done|].
    apply Forall_map. eapply Forall_filter_bool; [|exact Hraw]. cbv beta.
    intros item Hitem%Is_true_true Hid.
    by apply json_encode_emitted_shape, record_spec_shape. }
  split; [done|].
  unfold main, call_YTMusic, call_search. simpl.
  rewrite Hc. simpl. rewrite Hs. simpl. rewrite Hn. simpl. rewrite Hj. done.
Qed.

Lemma main_success_raw_records_witness :
  (2 <= json_nesting_limit py_shallow)%nat
  /\ YTMusic lib_ex1 "headers.json" = Ok "headers.json"
  /\ search lib_ex1 "headers.json" "lofi" "songs" 8 = Ok ex1
  /\ Forall raw_record ex1
  /\ exists results,
       normalize_results ex1 = Ok results
       /\ main py_shallow lib_ex1 ["ytmusic_search.py"; "lofi"; "headers.json"] =
            ([EYTMusic "headers.json";
              ESearch "lofi" "songs" 8;
              EPrint (json_text (PDict [("results", PList results)]))],
             Value tt)
       /\ exit_status
            (main py_shallow lib_ex1
               ["ytmusic_search.py"; "lofi"; "headers.json"]) = 0.
Proof.
  assert (H : Forall raw_record ex1) by (repeat constructor).
  split; [simpl; lia|]. split; [reflexivity|]. split; [reflexivity|].
  split; [exact H|].
  exact (main_success_raw_records py_shallow lib_ex1 "ytmusic_search.py" "lofi"
           "headers.json" [] "headers.json" ex1 (le_n 2) eq_refl eq_refl H).
Defined.
